(** * pytext/utils/torch.py: Vocabulary, utf8_chars and BPE

    A shallow embedding of the TorchScript helpers of
    [pytext/utils/torch.py] and the properties of its vocabulary lookup,
    its UTF-8 character iteration and its byte-pair encoder.

    Conventions of the embedding.
    - A TorchScript [str] is a byte string: [string] (a list of 8-bit
      [ascii]) is exactly that, [len] is [String.length], a slice
      [s[i : i + n]] is [substring i n s] (both clamp at the end of the
      string).
    - A TorchScript [int] is a signed 64-bit integer; the code only stores
      and compares priorities and ids, so they are [Z] and no arithmetic
      on them can wrap.
    - [Dict[str, int]] is [gmap string Z]; [d.get(k)] is [d !! k] and
      [d.get(k, v)] is [default v (d !! k)].
    - A computation is an [option]: [None] stands for "no value came
      back", either because an index was out of range (IndexError) or
      because a [while] loop used up its iteration budget. The theorems
      show [Some] wherever the code returns. *)

From Stdlib Require Import ZArith Ascii String Lia.
From stdpp Require Import base option list gmap strings.

Local Open Scope Z_scope.

(** ** Loops *)

Section While.
Context {State : Type}.
Variable cond : State → bool.
Variable body : State → option State.

(** [while cond: body], with a budget of [fuel] executions of the body.
    The condition is tested before the budget is. *)
Fixpoint while (fuel : nat) (s : State) : option State :=
  if cond s then
    match fuel with
    | O => None
    | S fuel' => s' ← body s; while fuel' s'
    end
  else Some s.

(** The number of times [while] executes its body. *)
Fixpoint iterations (fuel : nat) (s : State) : option nat :=
  if cond s then
    match fuel with
    | O => None
    | S fuel' =>
        s' ← body s; n ← iterations fuel' s'; Some (S n)
    end
  else Some O.

End While.

(** [for x in l: body], threading the loop's variables as [s]. *)
Fixpoint for_each {A State : Type} (body : State → A → option State)
    (l : list A) (s : State) : option State :=
  match l with
  | [] => Some s
  | x :: l' => s' ← body s x; for_each body l' s'
  end.

(** ** Python lists *)

(** [l[i]]: a negative index counts from the end, and an index outside
    [-len(l), len(l)) raises. *)
Definition py_index {A : Type} (l : list A) (i : Z) : option A :=
  let n := Z.of_nat (length l) in
  if (0 <=? i) && (i <? n) then l !! Z.to_nat i
  else if (- n <=? i) && (i <? 0) then l !! Z.to_nat (n + i)
  else None.

(** [enumerate(l)], counting from [i]. *)
Fixpoint enumerate {A : Type} (i : Z) (l : list A) : list (Z * A) :=
  match l with
  | [] => []
  | x :: l' => (i, x) :: enumerate (i + 1) l'
  end.

(** [w] occurs at position [i] of [l] and nowhere after it. *)
Definition last_at (l : list string) (w : string) (i : nat) : Prop :=
  l !! i = Some w ∧ ∀ j, (i < j)%nat → l !! j ≠ Some w.

Definition list_membership (item : Z) (l : list Z) : bool :=
  fold_left (λ item_present i, if item =? i then true else item_present)
    l false.

(** [list_max]: [l[0]] raises on the empty list; the loop reads [l[i + 1]]
    for [i] in [range(len(l) - 1)]. *)
Definition list_max (l : list Z) : option Z :=
  max_value ← py_index l 0;
  for_each
    (λ max_value i, x ← py_index l (Z.of_nat i + 1); Some (Z.max max_value x))
    (seq 0 (length l - 1)) max_value.

(** ** Vocabulary *)

Module Vocabulary.

Record t : Type := mk {
  vocab : list string;
  unk_idx : Z;
  pad_idx : Z;
  eos_idx : Z;
  bos_idx : Z;
  idx : gmap string Z
}.

(** [{word: i for i, word in enumerate(vocab_list)}]: a later occurrence
    of a word overwrites the earlier one. *)
Definition index_of_words (vocab_list : list string) : gmap string Z :=
  fold_left (λ (m : gmap string Z) iw, <[iw.2 := iw.1]> m)
    (enumerate 0 vocab_list) ∅.

(** [Vocabulary.__init__]. *)
Definition init (vocab_list : list string) (unk_idx pad_idx bos_idx eos_idx : Z)
  : t :=
  {| vocab := vocab_list;
     unk_idx := unk_idx;
     pad_idx := pad_idx;
     eos_idx := eos_idx;
     bos_idx := bos_idx;
     idx := index_of_words vocab_list |}.

Definition lookup_indices_1d (self : t) (values : list string) : list Z :=
  fold_left (λ result value, result ++ [default (unk_idx self) (idx self !! value)])
    values [].

Definition lookup_indices_2d (self : t) (values : list (list string))
  : list (list Z) :=
  fold_left (λ result value, result ++ [lookup_indices_1d self value])
    values [].

(** The body of the loop of [lookup_words_1d] for one [value]. *)
Definition lookup_words_step (self : t) (filter_token_list : list Z)
    (possible_unk_token : option string)
    (result : list string) (value : Z) : option (list string) :=
  if negb (list_membership value filter_token_list) then
    if value <? Z.of_nat (length (vocab self)) then
      w ← py_index (vocab self) value; Some (result ++ [w])
    else
      match possible_unk_token with
      | Some tok => Some (result ++ [tok])
      | None => w ← py_index (vocab self) (unk_idx self); Some (result ++ [w])
      end
  else Some result.

(** [values] is the 1-d tensor read as the list of its [int] entries. *)
Definition lookup_words_1d (self : t) (values : list Z)
    (filter_token_list : list Z) (possible_unk_token : option string)
  : option (list string) :=
  for_each (lookup_words_step self filter_token_list possible_unk_token)
    values [].

End Vocabulary.

Module VocabularySpec.
Import Vocabulary.

(** What the specification says [lookup_words_1d] emits for one id; this
    follows the words of the specification, not the source. *)
Definition emit_spec (self : t) (filter_ids : list Z)
    (unk_replacement : option string) (id : Z) : option (list string) :=
  if bool_decide (id ∈ filter_ids) then Some []
  else if bool_decide (0 ≤ id < Z.of_nat (length (vocab self))) then
    w ← vocab self !! Z.to_nat id; Some [w]
  else
    match unk_replacement with
    | Some tok => Some [tok]
    | None => w ← py_index (vocab self) (unk_idx self); Some [w]
    end.

(** The ids processed in order, each emitting what [emit_spec] says; an
    out-of-range [unk_idx] that is needed fails the whole call. *)
Fixpoint lookup_words_1d_spec (self : t) (filter_ids : list Z)
    (unk_replacement : option string) (ids : list Z) : option (list string) :=
  match ids with
  | [] => Some []
  | id :: ids' =>
      ws ← emit_spec self filter_ids unk_replacement id;
      rest ← lookup_words_1d_spec self filter_ids unk_replacement ids';
      Some (ws ++ rest)
  end.

End VocabularySpec.

Module VocabularyErrors.
Import Vocabulary.

(** The ids on which the body of [lookup_words_1d] indexes [self.vocab]
    out of range: an id below [-len(vocab)], and an id of [len(vocab)] or
    more when no replacement is given and [unk_idx] is itself out of
    range. *)
Definition raises (self : t) (possible_unk_token : option string) (id : Z)
  : Prop :=
  let n := Z.of_nat (length (vocab self)) in
  id < - n ∨
  (n ≤ id ∧ possible_unk_token = None ∧ ¬ (- n ≤ unk_idx self < n)).

End VocabularyErrors.

(** ** utf8_chars *)

(** [s[i:]] *)
Fixpoint string_drop (i : nat) (s : string) : string :=
  match i, s with
  | O, _ => s
  | S i', String _ s' => string_drop i' s'
  | S _, EmptyString => EmptyString
  end.

(** [ord(s[i])]. *)
Definition ord_at (s : string) (i : nat) : option Z :=
  c ← String.get i s; Some (Z.of_N (N_of_ascii c)).

(** The [if]/[elif] chain of [utf8_chars] for a byte that is not below
    0b10000000. *)
Definition num_bytes (byte : Z) : nat :=
  if byte <? 224 then 2
  else if byte <? 240 then 3
  else if byte <? 248 then 4
  else if byte <? 252 then 5
  else if byte <? 254 then 6
  else if byte <? 255 then 7
  else 8.

(** The number of bytes that [utf8_chars] takes for a character whose
    first byte is [byte]. *)
Definition char_width (byte : Z) : nat :=
  if byte <? 128 then 1%nat else num_bytes byte.

Definition utf8_cond (s : string) (st : nat * list string) : bool :=
  (st.1 <? String.length s)%nat.

Definition utf8_body (s : string) (st : nat * list string)
  : option (nat * list string) :=
  let '(i, chars) := st in
  byte ← ord_at s i;
  if byte <? 128 then Some ((i + 1)%nat, chars ++ [substring i 1 s])
  else
    let n := num_bytes byte in
    Some ((i + n)%nat, chars ++ [substring i n s]).

Definition utf8_chars_fuel (fuel : nat) (s : string) : option (list string) :=
  st ← while (utf8_cond s) (utf8_body s) fuel (O, []); Some st.2.

(** Every iteration moves [i] forward by at least one byte, so [len(s)]
    iterations are enough. *)
Definition utf8_chars (s : string) : option (list string) :=
  utf8_chars_fuel (String.length s) s.

(** ** BPE *)

Module BPE.

Definition NOT_IN_VOCAB : Z := -1.

(** [load_vocab] once [read_words] has produced the words of the file:
    [{word: num_words - i for i, word in enumerate(words)}]. *)
Definition load_vocab (words : list string) : gmap string Z :=
  let num_words := Z.of_nat (length words) in
  fold_left (λ (m : gmap string Z) iw, <[iw.2 := num_words - iw.1]> m)
    (enumerate 0 words) ∅.

Section Encoder.
Context (vocab : gmap string Z) (eow : string).

(** [self.vocab.get(k) is not None], which the source reads as
    [k in self.vocab]. *)
Definition in_vocab (k : string) : bool :=
  match vocab !! k with Some _ => true | None => false end.

(** [len(parts) > 0 and self.vocab.get(parts[-1] + self.eow) is None] *)
Definition trim_cond (parts : list string) : bool :=
  (0 <? length parts)%nat &&
  match py_index parts (-1) with
  | Some p => negb (in_vocab (p +:+ eow))
  | None => false
  end.

(** [parts.pop()] *)
Definition trim_body (parts : list string) : option (list string) :=
  match parts with
  | [] => None
  | _ => Some (take (length parts - 1) parts)
  end.

Definition trim_loop (fuel : nat) (parts : list string) : option (list string) :=
  while trim_cond trim_body fuel parts.

(** [parts[-1] += self.eow] *)
Definition append_eow (parts : list string) : option (list string) :=
  p ← py_index parts (-1);
  Some (<[(length parts - 1)%nat := p +:+ eow]> parts).

Definition filter_cond (st : nat * list string) : bool :=
  (st.1 <? length st.2)%nat.

Definition filter_body (st : nat * list string) : option (nat * list string) :=
  let '(i, parts) := st in
  p ← parts !! i;
  if negb (in_vocab p) then Some (i, delete i parts)
  else Some ((i + 1)%nat, parts).

Definition filter_loop (fuel : nat) (parts : list string)
  : option (list string) :=
  st ← while filter_cond filter_body fuel (O, parts); Some st.2.

(** [self.vocab.get(parts[pair_index] + parts[pair_index + 1], NOT_IN_VOCAB)] *)
Definition pair_priority (parts : list string) (pair_index : nat) : option Z :=
  p ← parts !! pair_index;
  q ← parts !! (pair_index + 1)%nat;
  Some (default NOT_IN_VOCAB (vocab !! (p +:+ q))).

(** The body of the [for pair_index in range(len(parts) - 1)] loop; the
    state is [(max_pair_index, max_pair_value)]. *)
Definition scan_step (parts : list string) (st : nat * Z) (pair_index : nat)
  : option (nat * Z) :=
  pair_value ← pair_priority parts pair_index;
  if pair_value >? st.2 then Some (pair_index, pair_value) else Some st.

Definition scan_pairs (parts : list string) : option (nat * Z) :=
  for_each (scan_step parts) (seq 0 (length parts - 1)) (O, NOT_IN_VOCAB).

(** [p1, p2 = parts[k : k + 2]] followed by
    [parts[:k] + [p1 + p2] + parts[k + 2 :]] *)
Definition merge_at (parts : list string) (k : nat) : option (list string) :=
  match take 2 (drop k parts) with
  | [p1; p2] => Some (take k parts ++ [p1 +:+ p2] ++ drop (k + 2) parts)
  | _ => None
  end.

(** [len(parts) > 1 and not should_break] *)
Definition merge_cond (st : list string * bool) : bool :=
  (1 <? length st.1)%nat && negb st.2.

Definition merge_body (st : list string * bool) : option (list string * bool) :=
  let '(parts, should_break) := st in
  sel ← scan_pairs parts;
  if sel.2 =? NOT_IN_VOCAB then Some (parts, true)
  else parts' ← merge_at parts sel.1; Some (parts', should_break).

Definition merge_loop (fuel : nat) (parts : list string)
  : option (list string) :=
  st ← while merge_cond merge_body fuel (parts, false); Some st.1.

(** [bpe_token]. Each loop gets the budget its own progress argument
    needs: a [pop] per iteration for the first, a [pop] or a step of [i]
    for the second, and a merge or the final [should_break] for the
    third. *)
Definition bpe_token (token : string) : option (list string) :=
  let full_token := token +:+ eow in
  if in_vocab full_token then Some [full_token]
  else
    parts ← utf8_chars token;
    parts ← trim_loop (length parts) parts;
    if (length parts =? 0)%nat then Some parts
    else
      parts ← append_eow parts;
      parts ← filter_loop (length parts) parts;
      merge_loop (length parts - 1) parts.

Definition tokenize (tokens : list string) : option (list string) :=
  for_each
    (λ bpe_tokens token,
       parts ← bpe_token token;
       Some (fold_left (λ acc part, acc ++ [part]) parts bpe_tokens))
    tokens [].

End Encoder.

(** The table of the docstring of [BPE], with the numbers of the file
    taken as the priorities. *)
Definition doc_table : gmap string Z :=
  <["ii" := -2]> (<["i" := -1]> (<["s_EOW" := 2]> (<["t" := 6]> (<["h" := 13]>
  (<["!" := 14]> (<["bpe_EOW" := 15]> (<["is_EOW" := 16]> (<["th" := 17]>
  (<["world_EOW" := 18]> (<["hello_EOW" := 20]> ∅)))))))))).

(** The words of the lines of the same file, in order. *)
Definition doc_words : list string :=
  ["hello_EOW"; "world_EOW"; "th"; "is_EOW"; "bpe_EOW"; "!"; "h"; "t";
   "s_EOW"; "i"; "ii"].

End BPE.

(** ** BPE: the statements about the merge loop *)

Module BPESpec.
Import BPE.

(** The pair at [k] has priority [v], no pair has a greater one, and
    every pair to its left has a smaller one. *)
Definition leftmost_greatest (vocab : gmap string Z) (parts : list string)
    (k : nat) (v : Z) : Prop :=
  pair_priority vocab parts k = Some v ∧
  (∀ j x, pair_priority vocab parts j = Some x → x ≤ v) ∧
  (∀ j x, (j < k)%nat → pair_priority vocab parts j = Some x → x < v).

(** What [(max_pair_index, max_pair_value)] is after the pairs
    [0 .. n - 1] have been looked at: still the initial [(0, -1)] when
    none of them has a priority above [-1], and otherwise the leftmost
    pair of greatest priority among them. *)
Definition scanned (vocab : gmap string Z) (parts : list string)
    (n : nat) (sel : nat * Z) : Prop :=
  (sel = (O, NOT_IN_VOCAB) ∧
   ∀ j x, (j < n)%nat → pair_priority vocab parts j = Some x → x ≤ NOT_IN_VOCAB)
  ∨
  (NOT_IN_VOCAB < sel.2 ∧ (sel.1 < n)%nat ∧
   pair_priority vocab parts sel.1 = Some sel.2 ∧
   (∀ j x, (j < n)%nat → pair_priority vocab parts j = Some x → x ≤ sel.2) ∧
   (∀ j x, (j < sel.1)%nat → pair_priority vocab parts j = Some x → x < sel.2)).

(** The measure of the merge loop: nothing is left to do once
    [should_break] is set, and otherwise at most one iteration per
    element beyond the first. *)
Definition merge_measure (st : list string * bool) : nat :=
  if st.2 then O else (length st.1 - 1)%nat.

(** What the code does in one iteration of the merge loop on [parts]:
    when no adjacent pair has a priority above [-1] it sets
    [should_break] and leaves [parts] alone; otherwise it replaces the
    leftmost adjacent pair of greatest priority by its concatenation,
    which makes [parts] one element shorter. *)
Definition merge_iteration (vocab : gmap string Z) (parts : list string)
  : Prop :=
  ((∀ j x, pair_priority vocab parts j = Some x → x ≤ NOT_IN_VOCAB) ∧
   merge_body vocab (parts, false) = Some (parts, true))
  ∨
  (∃ k v p q parts',
     leftmost_greatest vocab parts k v ∧ NOT_IN_VOCAB < v ∧
     parts !! k = Some p ∧ parts !! (k + 1)%nat = Some q ∧
     parts' = take k parts ++ [p +:+ q] ++ drop (k + 2) parts ∧
     merge_at parts k = Some parts' ∧
     merge_body vocab (parts, false) = Some (parts', false) ∧
     length parts = S (length parts')).

(** The iteration as the specification words it: the leftmost pair of
    greatest priority over all adjacent pairs is selected; the loop stops
    without a merge if that priority is [-1], and merges the pair
    otherwise. *)
Definition merge_iteration_as_stated (vocab : gmap string Z)
    (parts : list string) : Prop :=
  ∃ k v,
    leftmost_greatest vocab parts k v ∧
    (v = NOT_IN_VOCAB → merge_body vocab (parts, false) = Some (parts, true)) ∧
    (v ≠ NOT_IN_VOCAB →
     ∃ parts', merge_at parts k = Some parts' ∧
               merge_body vocab (parts, false) = Some (parts', false) ∧
               length parts = S (length parts')).

(** A hand-built table in which every pair of the word "aaa" has a
    priority below [-1]. *)
Definition low_table : gmap string Z :=
  <["aa_EOW" := -2]> (<["aa" := -2]> (<["a_EOW" := 0]> (<["a" := 0]> ∅))).

(** The table without its entries of negative priority. *)
Definition without_negative (vocab : gmap string Z) : gmap string Z :=
  filter (λ kv, 0 ≤ kv.2) vocab.

(** What every merge keeps of [parts]: the marker at the end of the last
    element, the concatenation of the elements, and a bound on their
    number. *)
Definition merge_kept (eow text : string) (bound : nat) (ps : list string)
  : Prop :=
  (∃ q, last ps = Some (q +:+ eow)) ∧
  String.concat "" ps = text ∧
  (length ps ≤ bound)%nat.

End BPESpec.

(** * Properties *)

(** ** Loops *)

Section WhileFacts.
Context {State : Type}.
Variable cond : State → bool.
Variable body : State → option State.

(** Total correctness of a loop from an invariant [I] and a measure [m]
    that every execution of the body decreases: with a budget of [m s] or
    more the loop returns, it executes its body at most [m s] times, and
    on exit the invariant holds and the condition fails. *)
Lemma while_total (I : State → Prop) (m : State → nat) :
  (∀ s, I s → cond s = true →
        ∃ s', body s = Some s' ∧ I s' ∧ (m s' < m s)%nat) →
  ∀ fuel s, I s → (m s ≤ fuel)%nat →
  ∃ r n, while cond body fuel s = Some r ∧
         iterations cond body fuel s = Some n ∧
         (n ≤ m s)%nat ∧ I r ∧ cond r = false.
Proof.
  intros Hstep fuel.
  induction fuel as [|fuel IH]; intros s HI Hm; simpl.
  - destruct (cond s) eqn:Hc.
    + destruct (Hstep s HI Hc) as (s' & _ & _ & Hlt). lia.
    + exists s, O. repeat split; auto. lia.
  - destruct (cond s) eqn:Hc.
    + destruct (Hstep s HI Hc) as (s' & Hb & HI' & Hlt).
      rewrite Hb. simpl.
      destruct (IH s' HI' ltac:(lia)) as (r & n & Hw & Hit & Hn & HIr & Hcr).
      exists r, (S n). rewrite Hw, Hit. simpl.
      repeat split; auto. lia.
    + exists s, O. repeat split; auto. lia.
Qed.

(** A larger budget does not change what a loop returns. *)
Lemma while_mono fuel fuel' s r :
  while cond body fuel s = Some r → (fuel ≤ fuel')%nat →
  while cond body fuel' s = Some r.
Proof.
  revert fuel' s.
  induction fuel as [|fuel IH]; intros fuel' s; simpl.
  - destruct (cond s) eqn:Hc; [discriminate|].
    intros Hr _. destruct fuel'; simpl; rewrite Hc; exact Hr.
  - destruct (cond s) eqn:Hc.
    + destruct fuel' as [|fuel']; [lia|]. simpl. rewrite Hc.
      destruct (body s) as [s'|]; simpl; [|discriminate].
      intros Hr Hle. apply IH; [exact Hr | lia].
    + intros Hr _. destruct fuel'; simpl; rewrite Hc; exact Hr.
Qed.

End WhileFacts.

(** Two loops with the same condition and bodies that agree pointwise
    return the same. *)
Lemma while_ext {State : Type} (cond : State → bool)
    (body1 body2 : State → option State) :
  (∀ s, body1 s = body2 s) →
  ∀ fuel s, while cond body1 fuel s = while cond body2 fuel s.
Proof.
  intros Hext fuel.
  induction fuel as [|fuel IH]; intros s; simpl; [reflexivity|].
  destruct (cond s); [|reflexivity].
  rewrite Hext. destruct (body2 s) as [s'|]; simpl; auto.
Qed.

Lemma for_each_app {A State : Type} (body : State → A → option State)
    (l1 l2 : list A) s :
  for_each body (l1 ++ l2) s = (s' ← for_each body l1 s; for_each body l2 s').
Proof.
  revert s. induction l1 as [|x l1 IH]; intros s; simpl; [reflexivity|].
  destruct (body s x) as [s'|]; simpl; auto.
Qed.

Lemma fold_left_snoc {A : Type} (l acc : list A) :
  fold_left (λ acc x, acc ++ [x]) l acc = acc ++ l.
Proof.
  revert acc. induction l as [|x l IH]; intros acc; simpl.
  - by rewrite app_nil_r.
  - rewrite IH. by rewrite <- app_assoc.
Qed.

(** ** Strings *)

Lemma string_app_cons c (s t : string) : String c s +:+ t = String c (s +:+ t).
Proof. reflexivity. Qed.

Lemma string_app_nil_r (s : string) : s +:+ "" = s.
Proof.
  induction s as [|c s IH]; [reflexivity|].
  by rewrite string_app_cons, IH.
Qed.

Lemma string_app_assoc (s t u : string) : (s +:+ t) +:+ u = s +:+ (t +:+ u).
Proof.
  induction s as [|c s IH]; [reflexivity|].
  by rewrite !string_app_cons, IH.
Qed.

Lemma string_drop_all (i : nat) (s : string) :
  (String.length s ≤ i)%nat → string_drop i s = "".
Proof.
  revert i. induction s as [|c s IH]; intros [|i] Hle; simpl in *;
    try reflexivity; try lia.
  apply IH. lia.
Qed.

Lemma substring_0_drop (n : nat) (s : string) :
  substring 0 n s +:+ string_drop n s = s.
Proof.
  revert s. induction n as [|n IH]; intros [|c s]; simpl; try reflexivity.
  by rewrite string_app_cons, IH.
Qed.

(** A slice followed by the rest of the string is the string from the
    start of the slice on, whether or not the slice reaches the end. *)
Lemma substring_drop (i n : nat) (s : string) :
  substring i n s +:+ string_drop (i + n) s = string_drop i s.
Proof.
  revert s. induction i as [|i IH]; intros s.
  - apply substring_0_drop.
  - destruct s as [|c s]; simpl.
    + by destruct n.
    + apply IH.
Qed.

Lemma string_get_lt (i : nat) (s : string) :
  (i < String.length s)%nat → is_Some (String.get i s).
Proof.
  revert i. induction s as [|c s IH]; intros i Hlt; simpl in *; [lia|].
  destruct i as [|i]; [by eexists|]. apply IH. lia.
Qed.

Lemma string_concat_snoc (l : list string) (x : string) :
  String.concat "" (l ++ [x]) = String.concat "" l +:+ x.
Proof.
  induction l as [|a l IH]; [reflexivity|].
  change ((a :: l) ++ [x]) with (a :: (l ++ [x])).
  destruct l as [|b l].
  - simpl. reflexivity.
  - change (String.concat "" (a :: (b :: l) ++ [x]))
      with (a +:+ "" +:+ String.concat "" ((b :: l) ++ [x])).
    rewrite IH.
    change (String.concat "" (a :: b :: l))
      with (a +:+ "" +:+ String.concat "" (b :: l)).
    by rewrite !string_app_assoc.
Qed.

(** ** utf8_chars *)

Lemma num_bytes_pos (byte : Z) : (2 ≤ num_bytes byte)%nat.
Proof. unfold num_bytes. repeat case_match; lia. Qed.

(** The loop of [utf8_chars]: the characters collected so far followed by
    the bytes from [i] on are the whole string. *)
Lemma utf8_loop_total (s : string) (fuel : nat) :
  (String.length s ≤ fuel)%nat →
  ∃ i chars,
    while (utf8_cond s) (utf8_body s) fuel (O, []) = Some (i, chars) ∧
    String.concat "" chars = s.
Proof.
  intros Hfuel.
  destruct (while_total (utf8_cond s) (utf8_body s)
    (λ st, String.concat "" st.2 +:+ string_drop st.1 s = s)
    (λ st, (String.length s - st.1)%nat)) with (fuel := fuel) (s := (O, @nil string))
    as (r & n & Hw & _ & _ & HI & Hc).
  - intros [i chars] HI Hc. unfold utf8_cond in Hc. simpl in *.
    apply Nat.ltb_lt in Hc.
    destruct (string_get_lt i s Hc) as [c Hget].
    unfold utf8_body, ord_at. rewrite Hget. simpl.
    pose proof (num_bytes_pos (Z.of_N (N_of_ascii c))) as Hn.
    destruct (Z.of_N (N_of_ascii c) <? 128); eexists; (split; [reflexivity|]);
      simpl; (split; [|lia]);
      rewrite string_concat_snoc, string_app_assoc, substring_drop; exact HI.
  - reflexivity.
  - simpl. lia.
  - destruct r as [i chars]. exists i, chars. split; [exact Hw|].
    unfold utf8_cond in Hc. simpl in *. apply Nat.ltb_ge in Hc.
    rewrite (string_drop_all i s Hc), string_app_nil_r in HI. exact HI.
Qed.

Lemma utf8_chars_total (s : string) :
  ∃ chars, utf8_chars s = Some chars ∧ String.concat "" chars = s.
Proof.
  destruct (utf8_loop_total s (String.length s)) as (i & chars & Hw & Hcat);
    [lia|].
  exists chars. unfold utf8_chars, utf8_chars_fuel. rewrite Hw. auto.
Qed.

(** A budget above [len(s)] changes nothing. *)
Lemma utf8_chars_fuel_enough (s : string) (fuel : nat) :
  (String.length s ≤ fuel)%nat → utf8_chars_fuel fuel s = utf8_chars s.
Proof.
  intros Hfuel. unfold utf8_chars, utf8_chars_fuel.
  destruct (utf8_loop_total s (String.length s)) as (i & chars & Hw & _);
    [lia|].
  rewrite Hw. by rewrite (while_mono _ _ _ _ _ _ Hw Hfuel).
Qed.

(** C9. [utf8_chars] returns for every byte string, well-formed UTF-8 or
    not, and the concatenation in order of the character substrings it
    returns is the string itself; on the empty string it returns the
    empty list. *)
Theorem utf8_chars_concat (s : string) :
  (∃ chars, utf8_chars s = Some chars ∧ String.concat "" chars = s) ∧
  utf8_chars "" = Some [].
Proof. split; [apply utf8_chars_total | reflexivity]. Qed.

(** ** Vocabulary *)

Lemma list_membership_fold (item : Z) (l : list Z) (b : bool) :
  fold_left (λ item_present i, if item =? i then true else item_present) l b
  = true ↔ b = true ∨ item ∈ l.
Proof.
  revert b. induction l as [|x l IH]; intros b; simpl.
  - rewrite elem_of_nil. tauto.
  - rewrite IH, elem_of_cons. destruct (Z.eqb_spec item x); intuition congruence.
Qed.

(** [list_membership] tests membership, although it never leaves its loop
    early. *)
Lemma list_membership_spec (item : Z) (l : list Z) :
  list_membership item l = bool_decide (item ∈ l).
Proof.
  unfold list_membership.
  destruct (bool_decide_reflect (item ∈ l)) as [Hin|Hnin].
  - apply list_membership_fold. by right.
  - apply not_true_is_false. rewrite list_membership_fold.
    intros [?|?]; [discriminate | contradiction].
Qed.

Lemma py_index_nonneg {A : Type} (l : list A) (i : Z) :
  0 ≤ i < Z.of_nat (length l) → py_index l i = l !! Z.to_nat i.
Proof.
  intros [H0 Hlt]. unfold py_index.
  apply Z.leb_le in H0. apply Z.ltb_lt in Hlt. by rewrite H0, Hlt.
Qed.

Lemma py_index_last {A : Type} (l : list A) : py_index l (-1) = last l.
Proof.
  unfold py_index. rewrite last_lookup.
  destruct l as [|x l]; [reflexivity|].
  cbn [length]. cbn [Nat.pred].
  destruct (Z.leb_spec 0 (-1)); [lia|]. cbn [andb].
  destruct (Z.leb_spec (- Z.of_nat (S (length l))) (-1)); [|lia].
  destruct (Z.ltb_spec (-1) 0); [|lia]. cbn [andb].
  f_equal. lia.
Qed.

Module VocabularyFacts.
Import Vocabulary VocabularySpec.

Lemma lookup_words_step_emit_spec self filter_ids unk result id :
  0 ≤ id ∨ id ∈ filter_ids →
  lookup_words_step self filter_ids unk result id
  = (ws ← emit_spec self filter_ids unk id; Some (result ++ ws)).
Proof.
  intros Hid. unfold lookup_words_step, emit_spec.
  rewrite list_membership_spec.
  destruct (bool_decide_reflect (id ∈ filter_ids)) as [Hin|Hnin]; simpl.
  { by rewrite app_nil_r. }
  destruct Hid as [Hid|Hid]; [|contradiction].
  destruct (Z.ltb_spec id (Z.of_nat (length (vocab self)))) as [Hlt|Hge].
  - rewrite bool_decide_eq_true_2 by lia.
    rewrite py_index_nonneg by lia.
    by destruct (vocab self !! Z.to_nat id).
  - rewrite bool_decide_eq_false_2 by lia.
    destruct unk; [done|].
    by destruct (py_index (vocab self) (unk_idx self)).
Qed.

Lemma lookup_words_loop_emit_spec self filter_ids unk ids result :
  Forall (λ id, 0 ≤ id ∨ id ∈ filter_ids) ids →
  for_each (lookup_words_step self filter_ids unk) ids result
  = (rest ← lookup_words_1d_spec self filter_ids unk ids; Some (result ++ rest)).
Proof.
  intros Hids. revert result.
  induction Hids as [|id ids Hid Hids IH]; intros result; simpl.
  - by rewrite app_nil_r.
  - rewrite lookup_words_step_emit_spec by exact Hid.
    destruct (emit_spec self filter_ids unk id) as [ws|]; simpl; [|done].
    rewrite IH.
    destruct (lookup_words_1d_spec self filter_ids unk ids) as [rest|]; simpl; [|done].
    by rewrite app_assoc.
Qed.

(** C5, as the code has it. For ids that are non-negative or filtered,
    [lookup_words_1d] processes the ids in order and for each id emits
    nothing if it is in the filter list, [vocab[id]] if
    [0 <= id < len(vocab)], and otherwise [possible_unk_token] when one
    is given, else [vocab[unk_idx]]. *)
Theorem lookup_words_1d_emits (self : t) (ids filter_ids : list Z)
    (unk : option string) :
  Forall (λ id, 0 ≤ id ∨ id ∈ filter_ids) ids →
  lookup_words_1d self ids filter_ids unk
  = lookup_words_1d_spec self filter_ids unk ids.
Proof.
  intros Hids. unfold lookup_words_1d.
  rewrite lookup_words_loop_emit_spec by exact Hids.
  by destruct (lookup_words_1d_spec self filter_ids unk ids).
Qed.

Lemma lookup_words_1d_emits_witness :
  let self := init ["a"; "b"; "c"] 0 (-1) (-1) (-1) in
  Forall (λ id, 0 ≤ id ∨ id ∈ [-1]) [0; -1; 5; 2] ∧
  lookup_words_1d self [0; -1; 5; 2] [-1] None
  = lookup_words_1d_spec self [-1] None [0; -1; 5; 2].
Proof.
  assert (H : Forall (λ id, 0 ≤ id ∨ id ∈ [-1]) [0; -1; 5; 2]).
  { repeat (apply Forall_cons_2;
              [first [left; lia | right; apply list_elem_of_In; simpl; tauto]|]).
    apply Forall_nil_2. }
  split; [exact H|].
  exact (lookup_words_1d_emits (init ["a"; "b"; "c"] 0 (-1) (-1) (-1))
           [0; -1; 5; 2] [-1] None H).
Defined.

(** C5 as the specification states it fails on a negative id that is not
    filtered: the code only tests [value < len(self.vocab)], so [-1]
    reads the last token where the specification says the unk token. *)
Lemma lookup_words_1d_negative_id :
  let self := init ["a"; "b"; "c"] 0 (-1) (-1) (-1) in
  lookup_words_1d self [-1] [] None = Some ["c"] ∧
  lookup_words_1d_spec self [] None [-1] = Some ["a"] ∧
  lookup_words_1d self [-1] [] None ≠ lookup_words_1d_spec self [] None [-1].
Proof. repeat split. vm_compute. discriminate. Qed.

End VocabularyFacts.

Module RoundTrip.
Import Vocabulary.

Lemma index_fold_notin (w : string) (l : list string) (k : Z)
    (m : gmap string Z) :
  w ∉ l →
  fold_left (λ (m : gmap string Z) iw, <[iw.2 := iw.1]> m) (enumerate k l) m !! w
  = m !! w.
Proof.
  revert k m. induction l as [|x l IH]; intros k m Hnin; simpl; [done|].
  apply not_elem_of_cons in Hnin as [Hne Hnin].
  rewrite IH by exact Hnin. by apply lookup_insert_ne.
Qed.

Lemma index_fold_lookup (l : list string) (k : Z) (m : gmap string Z)
    (i : nat) (w : string) :
  NoDup l → l !! i = Some w →
  fold_left (λ (m : gmap string Z) iw, <[iw.2 := iw.1]> m) (enumerate k l) m !! w
  = Some (k + Z.of_nat i).
Proof.
  intros Hnd. revert k m i.
  induction Hnd as [|x l Hx Hnd IH]; intros k m i Hi; [done|].
  destruct i as [|i]; simpl in *.
  - injection Hi as ->. rewrite index_fold_notin by exact Hx.
    rewrite lookup_insert_eq. f_equal. lia.
  - rewrite (IH _ _ i Hi). f_equal. lia.
Qed.

(** In a vocabulary built from distinct tokens, [idx] sends the token at
    position [i] to [i]. *)
Lemma init_idx_lookup vocab_list unk pad bos eos (i : nat) (w : string) :
  NoDup vocab_list → vocab_list !! i = Some w →
  idx (init vocab_list unk pad bos eos) !! w = Some (Z.of_nat i).
Proof.
  intros Hnd Hi. simpl. unfold index_of_words.
  rewrite (index_fold_lookup vocab_list 0 ∅ i w Hnd Hi). f_equal.
Qed.

Lemma lookup_indices_loop (self : t) (values : list string) (acc : list Z) :
  fold_left (λ result value, result ++ [default (unk_idx self) (idx self !! value)])
    values acc
  = acc ++ map (λ value, default (unk_idx self) (idx self !! value)) values.
Proof.
  revert acc. induction values as [|v values IH]; intros acc; simpl.
  - by rewrite app_nil_r.
  - rewrite IH. by rewrite <- app_assoc.
Qed.

Lemma lookup_indices_1d_map (self : t) (values : list string) :
  lookup_indices_1d self values
  = map (λ value, default (unk_idx self) (idx self !! value)) values.
Proof. apply lookup_indices_loop. Qed.

Lemma round_trip_step (self : t) (result : list string) (i : nat) (w : string) :
  vocab self !! i = Some w →
  lookup_words_step self [] None result (Z.of_nat i) = Some (result ++ [w]).
Proof.
  intros Hi. pose proof (lookup_lt_Some _ _ _ Hi) as Hlt.
  unfold lookup_words_step. cbn [list_membership fold_left negb].
  destruct (Z.ltb_spec (Z.of_nat i) (Z.of_nat (length (vocab self)))); [|lia].
  rewrite py_index_nonneg by lia.
  by rewrite Nat2Z.id, Hi.
Qed.

Lemma round_trip_loop (self : t) (words result : list string) :
  Forall (λ w, ∃ i : nat, vocab self !! i = Some w ∧
                          idx self !! w = Some (Z.of_nat i)) words →
  for_each (lookup_words_step self [] None)
    (map (λ value, default (unk_idx self) (idx self !! value)) words) result
  = Some (result ++ words).
Proof.
  intros Hwords. revert result.
  induction Hwords as [|w words (i & Hi & Hidx) Hwords IH]; intros result.
  - cbn [map for_each]. by rewrite app_nil_r.
  - cbn [map for_each]. rewrite Hidx.
    change (default (unk_idx self) (Some (Z.of_nat i))) with (Z.of_nat i).
    rewrite (round_trip_step self result i w Hi). cbn [mbind option_bind].
    rewrite IH. by rewrite <- app_assoc.
Qed.

(** C6. For a vocabulary built from a duplicate-free token list and words
    that all occur in the list, looking the words up and looking the ids
    back up, with no filter and no replacement, returns the words. *)
Theorem lookup_round_trip (vocab_list : list string) (unk pad bos eos : Z)
    (words : list string) :
  NoDup vocab_list → Forall (λ w, w ∈ vocab_list) words →
  let self := init vocab_list unk pad bos eos in
  lookup_words_1d self (lookup_indices_1d self words) [] None = Some words.
Proof.
  intros Hnd Hwords self. unfold lookup_words_1d.
  rewrite lookup_indices_1d_map.
  apply (round_trip_loop self words []).
  eapply Forall_impl; [exact Hwords|].
  intros w [i Hi]%list_elem_of_lookup. exists i. split; [exact Hi|].
  by apply init_idx_lookup.
Qed.

Lemma lookup_round_trip_witness :
  NoDup ["a"; "b"; "c"] ∧ Forall (λ w, w ∈ ["a"; "b"; "c"]) ["c"; "a"; "c"] ∧
  let self := init ["a"; "b"; "c"] 1 (-1) (-1) (-1) in
  lookup_words_1d self (lookup_indices_1d self ["c"; "a"; "c"]) [] None
  = Some ["c"; "a"; "c"].
Proof.
  assert (Hnd : NoDup ["a"; "b"; "c"]) by (apply (bool_decide_unpack _); vm_compute; exact I).
  assert (Hw : Forall (λ w, w ∈ ["a"; "b"; "c"]) ["c"; "a"; "c"]).
  { repeat (apply Forall_cons_2; [apply list_elem_of_In; simpl; tauto|]).
    apply Forall_nil_2. }
  split; [exact Hnd|]. split; [exact Hw|].
  exact (lookup_round_trip ["a"; "b"; "c"] 1 (-1) (-1) (-1) ["c"; "a"; "c"] Hnd Hw).
Defined.

End RoundTrip.

(** ** BPE: one pass over the adjacent pairs *)

Module BPEFacts.
Import BPE BPESpec.

Section Scan.
Context (vocab : gmap string Z).

Lemma pair_priority_Some (parts : list string) (j : nat) (x : Z) :
  pair_priority vocab parts j = Some x ↔
  ∃ p q, parts !! j = Some p ∧ parts !! (j + 1)%nat = Some q ∧
         x = default NOT_IN_VOCAB (vocab !! (p +:+ q)).
Proof.
  unfold pair_priority. split.
  - destruct (parts !! j) as [p|]; [|discriminate].
    destruct (parts !! (j + 1)%nat) as [q|]; [|discriminate].
    simpl. intros [= <-]. by exists p, q.
  - intros (p & q & -> & -> & ->). reflexivity.
Qed.

Lemma pair_priority_in_range (parts : list string) (j : nat) :
  (j + 1 < length parts)%nat → is_Some (pair_priority vocab parts j).
Proof.
  intros Hj.
  destruct (lookup_lt_is_Some_2 parts j ltac:(lia)) as [p Hp].
  destruct (lookup_lt_is_Some_2 parts (j + 1) ltac:(lia)) as [q Hq].
  eexists. apply pair_priority_Some. by exists p, q.
Qed.

Lemma pair_priority_lt (parts : list string) (j : nat) (x : Z) :
  pair_priority vocab parts j = Some x → (j + 1 < length parts)%nat.
Proof.
  intros (p & q & _ & Hq & _)%pair_priority_Some.
  by apply lookup_lt_Some in Hq.
Qed.

Lemma scan_prefix (parts : list string) (n : nat) :
  (n ≤ length parts - 1)%nat →
  ∃ sel, for_each (scan_step vocab parts) (seq 0 n) (O, NOT_IN_VOCAB) = Some sel ∧
         scanned vocab parts n sel.
Proof.
  induction n as [|n IH]; intros Hn.
  - exists (O, NOT_IN_VOCAB). split; [reflexivity|].
    left. split; [reflexivity|]. intros j x Hj. lia.
  - destruct (IH ltac:(lia)) as (sel & Hsel & Hpost).
    rewrite seq_S, for_each_app, Hsel. cbn [mbind option_bind for_each plus].
    destruct (pair_priority_in_range parts n ltac:(lia)) as [x Hx].
    unfold scan_step. rewrite Hx. cbn [mbind option_bind].
    destruct (Z.gtb_spec x sel.2) as [Hgt|Hle].
    + eexists. split; [reflexivity|]. right. cbn [fst snd].
      assert (Hall : ∀ j y, (j < n)%nat →
                pair_priority vocab parts j = Some y → y < x).
      { intros j y Hj Hy.
        destruct Hpost as [[-> Hlow]|(_ & _ & _ & Hmax & _)].
        - specialize (Hlow j y Hj Hy). simpl in Hgt. lia.
        - specialize (Hmax j y Hj Hy). lia. }
      assert (Hx1 : NOT_IN_VOCAB < x).
      { destruct Hpost as [[-> _]|(Hv & _)]; simpl in *; lia. }
      repeat split; [exact Hx1 | lia | exact Hx | | exact Hall].
      intros j y Hj Hy. destruct (decide (j = n)) as [->|Hne].
      * rewrite Hx in Hy. injection Hy as <-. lia.
      * specialize (Hall j y ltac:(lia) Hy). lia.
    + exists sel. split; [reflexivity|].
      destruct Hpost as [[-> Hlow]|(Hv & Hk & Hkv & Hmax & Hleft)].
      * left. split; [reflexivity|]. intros j y Hj Hy.
        destruct (decide (j = n)) as [->|Hne].
        -- rewrite Hx in Hy. injection Hy as <-. simpl in Hle. lia.
        -- apply (Hlow j y); [lia | exact Hy].
      * right. repeat split; [exact Hv | lia | exact Hkv | | exact Hleft].
        intros j y Hj Hy. destruct (decide (j = n)) as [->|Hne].
        -- rewrite Hx in Hy. injection Hy as <-. lia.
        -- apply (Hmax j y); [lia | exact Hy].
Qed.

(** The scan returns for every [parts]: [(0, -1)] when no adjacent pair
    has a priority above [-1], and otherwise the leftmost adjacent pair of
    greatest priority together with that priority. *)
Lemma scan_pairs_spec (parts : list string) :
  ∃ sel, scan_pairs vocab parts = Some sel ∧
    ((sel = (O, NOT_IN_VOCAB) ∧
      ∀ j x, pair_priority vocab parts j = Some x → x ≤ NOT_IN_VOCAB)
     ∨ (NOT_IN_VOCAB < sel.2 ∧ leftmost_greatest vocab parts sel.1 sel.2)).
Proof.
  destruct (scan_prefix parts (length parts - 1) ltac:(lia))
    as (sel & Hsel & Hpost).
  exists sel. split; [exact Hsel|].
  destruct Hpost as [[-> Hlow]|(Hv & Hk & Hkv & Hmax & Hleft)].
  - left. split; [reflexivity|]. intros j x Hx.
    apply (Hlow j x); [|exact Hx]. apply pair_priority_lt in Hx. lia.
  - right. split; [exact Hv|]. repeat split; [exact Hkv | | exact Hleft].
    intros j x Hx. apply (Hmax j x); [|exact Hx].
    apply pair_priority_lt in Hx. lia.
Qed.

Lemma merge_at_spec (parts : list string) (k : nat) (p q : string) :
  parts !! k = Some p → parts !! (k + 1)%nat = Some q →
  merge_at parts k = Some (take k parts ++ [p +:+ q] ++ drop (k + 2) parts) ∧
  length parts
  = S (length (take k parts ++ [p +:+ q] ++ drop (k + 2) parts)).
Proof.
  intros Hp Hq. pose proof (lookup_lt_Some _ _ _ Hq) as Hlt.
  split.
  - unfold merge_at. rewrite (drop_S parts p k Hp).
    replace (k + 1)%nat with (S k) in Hq by lia.
    rewrite (drop_S parts q (S k) Hq).
    replace (k + 2)%nat with (S (S k)) by lia.
    cbn [take]. reflexivity.
  - rewrite !length_app, length_take, length_drop. simpl length. lia.
Qed.

(** One execution of the body of the merge loop. *)
Lemma merge_body_spec (parts : list string) (should_break : bool) :
  ((∀ j x, pair_priority vocab parts j = Some x → x ≤ NOT_IN_VOCAB) ∧
   scan_pairs vocab parts = Some (O, NOT_IN_VOCAB) ∧
   merge_body vocab (parts, should_break) = Some (parts, true))
  ∨
  (∃ k v p q,
     scan_pairs vocab parts = Some (k, v) ∧
     leftmost_greatest vocab parts k v ∧ NOT_IN_VOCAB < v ∧
     parts !! k = Some p ∧ parts !! (k + 1)%nat = Some q ∧
     vocab !! (p +:+ q) = Some v ∧
     merge_at parts k = Some (take k parts ++ [p +:+ q] ++ drop (k + 2) parts) ∧
     merge_body vocab (parts, should_break)
     = Some (take k parts ++ [p +:+ q] ++ drop (k + 2) parts, should_break) ∧
     length parts
     = S (length (take k parts ++ [p +:+ q] ++ drop (k + 2) parts))).
Proof.
  destruct (scan_pairs_spec parts) as (sel & Hsel & [[-> Hlow]|[Hv Hbest]]).
  - left. split; [exact Hlow|]. split; [exact Hsel|].
    unfold merge_body. rewrite Hsel. reflexivity.
  - right. destruct sel as [k v]. cbn [fst snd] in *.
    destruct Hbest as (Hkv & Hmax & Hleft).
    pose proof Hkv as (p & q & Hp & Hq & Hdef)%pair_priority_Some.
    assert (Hpq : vocab !! (p +:+ q) = Some v).
    { destruct (vocab !! (p +:+ q)) as [v'|]; simpl in Hdef; [by subst|].
      unfold NOT_IN_VOCAB in *. lia. }
    destruct (merge_at_spec parts k p q Hp Hq) as [Hmerge Hlen].
    exists k, v, p, q.
    repeat split; try assumption.
    unfold merge_body. rewrite Hsel. cbn [mbind option_bind fst snd].
    destruct (Z.eqb_spec v NOT_IN_VOCAB) as [->|_]; [lia|].
    rewrite Hmerge. reflexivity.
Qed.

End Scan.

(** ** BPE: an iteration of the merge loop *)

(** [bpe_token] reaches the merge loop on "aaa" with these parts, and
    returns them unmerged. *)
Example low_table_aaa :
  bpe_token low_table "_EOW" "aaa" = Some ["a"; "a"; "a_EOW"] ∧
  pair_priority low_table ["a"; "a"; "a_EOW"] 0 = Some (-2) ∧
  pair_priority low_table ["a"; "a"; "a_EOW"] 1 = Some (-2) ∧
  merge_body low_table (["a"; "a"; "a_EOW"], false)
  = Some (["a"; "a"; "a_EOW"], true).
Proof. repeat split. Qed.

(** C1 as stated fails where every adjacent pair has a priority below
    [-1]: the greatest priority, [-2], is not the sentinel, and yet the
    loop stops without a merge. *)
Lemma merge_iteration_as_stated_fails :
  ¬ merge_iteration_as_stated low_table ["a"; "a"; "a_EOW"].
Proof.
  intros (k & v & (Hkv & _ & _) & _ & Hmerge).
  assert (Hv : v = -2).
  { destruct k as [|[|k]]; vm_compute in Hkv; [congruence | congruence |].
    destruct k; discriminate. }
  destruct Hmerge as (parts' & _ & Hbody & _).
  { rewrite Hv. unfold NOT_IN_VOCAB. lia. }
  vm_compute in Hbody. discriminate.
Qed.

(** C1, as the code has it. In every iteration of the merge loop, if no
    adjacent pair has a priority above the sentinel [-1] (the table's
    value for the concatenation, or [-1] when it is not a key), the loop
    stops without a merge; otherwise the adjacent pair of greatest
    priority, the leftmost one among equals, is replaced by its
    concatenation and [parts] shrinks by one. *)
Theorem merge_iteration_selects (vocab : gmap string Z) (parts : list string) :
  (1 < length parts)%nat → merge_iteration vocab parts.
Proof.
  intros _. unfold merge_iteration.
  destruct (merge_body_spec vocab parts false)
    as [(Hlow & _ & Hbody)
       |(k & v & p & q & _ & Hbest & Hv & Hp & Hq & _ & Hm & Hbody & Hlen)].
  - left. by split.
  - right. exists k, v, p, q, (take k parts ++ [p +:+ q] ++ drop (k + 2) parts).
    repeat split; try assumption; apply Hbest.
Qed.

Lemma merge_iteration_selects_witness :
  (1 < length ["t"; "h"; "i"; "s_EOW"])%nat ∧
  merge_iteration doc_table ["t"; "h"; "i"; "s_EOW"].
Proof.
  assert (H : (1 < length ["t"; "h"; "i"; "s_EOW"])%nat) by (simpl; lia).
  split; [exact H|].
  exact (merge_iteration_selects doc_table ["t"; "h"; "i"; "s_EOW"] H).
Defined.

(** ** BPE: negative priorities *)

Lemma default_without_negative (vocab : gmap string Z) (k : string) (v : Z) :
  NOT_IN_VOCAB ≤ v →
  (default NOT_IN_VOCAB (without_negative vocab !! k) >? v)
  = (default NOT_IN_VOCAB (vocab !! k) >? v) ∧
  ((default NOT_IN_VOCAB (vocab !! k) >? v) = true →
   default NOT_IN_VOCAB (without_negative vocab !! k)
   = default NOT_IN_VOCAB (vocab !! k)).
Proof.
  intros Hv. unfold without_negative, NOT_IN_VOCAB in *.
  destruct (vocab !! k) as [x|] eqn:Hk.
  - destruct (decide (0 ≤ x)) as [Hx|Hx].
    + rewrite (map_lookup_filter_Some_2 _ vocab k x Hk Hx). by split.
    + rewrite map_lookup_filter_None_2.
      2:{ right. intros y Hy. rewrite Hk in Hy. injection Hy as <-. exact Hx. }
      simpl. split.
      * destruct (Z.gtb_spec (-1) v), (Z.gtb_spec x v); try reflexivity; lia.
      * destruct (Z.gtb_spec x v); [lia | discriminate].
  - rewrite map_lookup_filter_None_2 by (by left). by split.
Qed.

Lemma scan_step_without_negative (vocab : gmap string Z) (parts : list string)
    (st : nat * Z) (j : nat) :
  NOT_IN_VOCAB ≤ st.2 →
  scan_step (without_negative vocab) parts st j = scan_step vocab parts st j ∧
  ∀ st', scan_step vocab parts st j = Some st' → NOT_IN_VOCAB ≤ st'.2.
Proof.
  intros Hst. unfold scan_step, pair_priority.
  destruct (parts !! j) as [p|]; [|by split].
  destruct (parts !! (j + 1)%nat) as [q|]; [|by split].
  cbn [mbind option_bind].
  destruct (default_without_negative vocab (p +:+ q) st.2 Hst) as [Hgt Heq].
  rewrite Hgt.
  destruct (Z.gtb_spec (default NOT_IN_VOCAB (vocab !! (p +:+ q))) st.2)
    as [Hlt|Hge].
  - rewrite Heq by reflexivity. split; [reflexivity|].
    intros st' [= <-]. simpl. lia.
  - split; [reflexivity|]. by intros st' [= <-].
Qed.

Lemma scan_loop_without_negative (vocab : gmap string Z) (parts : list string)
    (l : list nat) (st : nat * Z) :
  NOT_IN_VOCAB ≤ st.2 →
  for_each (scan_step (without_negative vocab) parts) l st
  = for_each (scan_step vocab parts) l st.
Proof.
  revert st. induction l as [|j l IH]; intros st Hst; [reflexivity|].
  cbn [for_each].
  destruct (scan_step_without_negative vocab parts st j Hst) as [-> Hnext].
  destruct (scan_step vocab parts st j) as [st'|]; [|reflexivity].
  cbn [mbind option_bind]. apply IH. by apply Hnext.
Qed.

Lemma merge_body_without_negative (vocab : gmap string Z)
    (st : list string * bool) :
  merge_body (without_negative vocab) st = merge_body vocab st.
Proof.
  destruct st as [parts should_break]. unfold merge_body, scan_pairs.
  rewrite scan_loop_without_negative; [reflexivity|].
  simpl. reflexivity.
Qed.

(** C3. An iteration of the merge loop that merges has selected a pair
    whose concatenation is a key of non-negative priority, so a pair
    whose concatenation has a negative priority is never merged; and the
    merge loop returns the same with the table as with the table
    stripped of its negative entries. *)
Theorem negative_priority_never_merged (vocab : gmap string Z)
    (parts : list string) :
  (∀ parts',
     merge_body vocab (parts, false) = Some (parts', false) →
     ∃ k v p q,
       scan_pairs vocab parts = Some (k, v) ∧
       parts !! k = Some p ∧ parts !! (k + 1)%nat = Some q ∧
       merge_at parts k = Some parts' ∧
       vocab !! (p +:+ q) = Some v ∧ 0 ≤ v) ∧
  (∀ fuel,
     merge_loop (without_negative vocab) fuel parts
     = merge_loop vocab fuel parts).
Proof.
  split.
  - intros parts' Hbody.
    destruct (merge_body_spec vocab parts false)
      as [(_ & _ & Hstop)
         |(k & v & p & q & Hscan & _ & Hv & Hp & Hq & Hpq & Hm & Hmerge & _)].
    + rewrite Hstop in Hbody. discriminate.
    + rewrite Hmerge in Hbody. injection Hbody as <-.
      exists k, v, p, q. unfold NOT_IN_VOCAB in Hv.
      repeat split; try assumption. lia.
  - intros fuel. unfold merge_loop.
    rewrite (while_ext merge_cond (merge_body (without_negative vocab))
               (merge_body vocab) (merge_body_without_negative vocab)).
    reflexivity.
Qed.

Lemma negative_priority_never_merged_witness :
  ∃ k v p q,
    scan_pairs doc_table ["t"; "h"; "i"; "s_EOW"] = Some (k, v) ∧
    ["t"; "h"; "i"; "s_EOW"] !! k = Some p ∧
    ["t"; "h"; "i"; "s_EOW"] !! (k + 1)%nat = Some q ∧
    merge_at ["t"; "h"; "i"; "s_EOW"] k = Some ["th"; "i"; "s_EOW"] ∧
    doc_table !! (p +:+ q) = Some v ∧ 0 ≤ v.
Proof.
  exact (proj1 (negative_priority_never_merged doc_table
                  ["t"; "h"; "i"; "s_EOW"])
           ["th"; "i"; "s_EOW"] eq_refl).
Defined.

(** ** BPE: the loops of [bpe_token] *)

Section Loops.
Context (vocab : gmap string Z) (eow : string).

(** The trailing-trim loop pops an element in every iteration. *)
Lemma trim_body_progress (parts : list string) :
  trim_cond vocab eow parts = true →
  ∃ parts', trim_body parts = Some parts' ∧
            (length parts' < length parts)%nat.
Proof.
  unfold trim_cond. intros [Hlen _]%andb_true_iff.
  apply Nat.ltb_lt in Hlen.
  destruct parts as [|p parts]; [simpl in Hlen; lia|].
  eexists. split; [reflexivity|].
  rewrite length_take. lia.
Qed.

Lemma trim_loop_total (parts : list string) (fuel : nat) :
  (length parts ≤ fuel)%nat →
  ∃ r, trim_loop vocab eow fuel parts = Some r ∧
       trim_cond vocab eow r = false.
Proof.
  intros Hfuel.
  destruct (while_total (trim_cond vocab eow) trim_body
              (λ _, True) (λ ps, length ps)) with (fuel := fuel) (s := parts)
    as (r & n & Hw & _ & _ & _ & Hc); [| exact I | exact Hfuel |].
  - intros ps _ Hc.
    destruct (trim_body_progress ps Hc) as (ps' & Hb & Hlt).
    exists ps'. by repeat split.
  - by exists r.
Qed.

(** After the trim loop a non-empty [parts] ends in an element that is a
    key once [eow] is attached, and [parts[-1] += eow] succeeds. *)
Lemma append_eow_after_trim (parts : list string) :
  trim_cond vocab eow parts = false → (length parts =? 0)%nat = false →
  ∃ parts', append_eow eow parts = Some parts'.
Proof.
  intros _ Hlen. apply Nat.eqb_neq in Hlen.
  unfold append_eow. rewrite py_index_last, last_lookup.
  destruct (lookup_lt_is_Some_2 parts (pred (length parts)) ltac:(lia))
    as [p ->].
  by eexists.
Qed.

(** The filter loop pops an element or moves [i] forward in every
    iteration, so [len(parts) - i] decreases. *)
Lemma filter_body_progress (st : nat * list string) :
  filter_cond st = true →
  ∃ st', filter_body vocab st = Some st' ∧
         (length st'.2 - st'.1 < length st.2 - st.1)%nat ∧
         (Forall (λ p, in_vocab vocab p = true) (take st.1 st.2) →
          Forall (λ p, in_vocab vocab p = true) (take st'.1 st'.2)).
Proof.
  destruct st as [i parts]. unfold filter_cond. cbn [fst snd].
  intros Hc%Nat.ltb_lt.
  destruct (lookup_lt_is_Some_2 parts i Hc) as [p Hp].
  unfold filter_body. rewrite Hp. cbn [mbind option_bind].
  destruct (in_vocab vocab p) eqn:Hin; cbn [negb];
    eexists; (split; [reflexivity|]); cbn [fst snd].
  - split; [lia|]. intros Hall.
    replace (i + 1)%nat with (S i) by lia.
    rewrite (take_S_r parts i p Hp). apply Forall_app. split; [exact Hall|].
    by apply Forall_singleton.
  - split.
    + rewrite length_delete by (by eexists). lia.
    + intros Hall. rewrite delete_take_drop.
      rewrite take_app_le by (rewrite length_take; lia).
      rewrite take_take. by replace (i `min` i)%nat with i by lia.
Qed.

(** The filter loop returns, and what it returns are keys only. *)
Lemma filter_loop_total (parts : list string) (fuel : nat) :
  (length parts ≤ fuel)%nat →
  ∃ r, filter_loop vocab fuel parts = Some r ∧
       Forall (λ p, in_vocab vocab p = true) r.
Proof.
  intros Hfuel.
  destruct (while_total filter_cond (filter_body vocab)
              (λ st, Forall (λ p, in_vocab vocab p = true) (take st.1 st.2))
              (λ st, (length st.2 - st.1)%nat))
    with (fuel := fuel) (s := (O, parts))
    as (r & n & Hw & _ & _ & HI & Hc).
  - intros st HI Hc.
    destruct (filter_body_progress st Hc) as (st' & Hb & Hlt & Hkeep).
    exists st'. repeat split; [exact Hb | by apply Hkeep | exact Hlt].
  - cbn [fst snd take]. apply Forall_nil_2.
  - cbn [fst snd]. lia.
  - exists r.2. unfold filter_loop. rewrite Hw. split; [reflexivity|].
    unfold filter_cond in Hc. apply Nat.ltb_ge in Hc.
    by rewrite take_ge in HI.
Qed.

Lemma merge_body_progress (st : list string * bool) :
  merge_cond st = true →
  ∃ st', merge_body vocab st = Some st' ∧
         (merge_measure st' < merge_measure st)%nat ∧
         (st'.2 = false → length st.1 = S (length st'.1)) ∧
         (Forall (λ p, in_vocab vocab p = true) st.1 →
          Forall (λ p, in_vocab vocab p = true) st'.1).
Proof.
  destruct st as [parts should_break]. unfold merge_cond. cbn [fst snd].
  intros [Hlen Hsb]%andb_true_iff.
  apply Nat.ltb_lt in Hlen. apply negb_true_iff in Hsb. subst should_break.
  destruct (merge_body_spec vocab parts false)
    as [(_ & _ & Hbody)
       |(k & v & p & q & _ & _ & Hv & Hp & Hq & Hpq & _ & Hbody & Hl)].
  - eexists. split; [exact Hbody|]. unfold merge_measure. cbn [fst snd].
    repeat split; [lia | discriminate | auto].
  - eexists. split; [exact Hbody|]. unfold merge_measure. cbn [fst snd].
    repeat split; [lia | auto |].
    intros Hall. apply Forall_app. split; [by apply Forall_take|].
    apply Forall_cons_2; [|by apply Forall_drop].
    unfold in_vocab. by rewrite Hpq.
Qed.

(** The merge loop returns within [len(parts) - 1] iterations, and keeps
    [parts] within the keys of the table. *)
Lemma merge_loop_total (parts : list string) (fuel : nat) :
  (length parts - 1 ≤ fuel)%nat →
  ∃ st n,
    while merge_cond (merge_body vocab) fuel (parts, false) = Some st ∧
    iterations merge_cond (merge_body vocab) fuel (parts, false) = Some n ∧
    (n ≤ length parts - 1)%nat ∧
    (Forall (λ p, in_vocab vocab p = true) parts →
     Forall (λ p, in_vocab vocab p = true) st.1).
Proof.
  intros Hfuel.
  destruct (while_total merge_cond (merge_body vocab)
              (λ st, Forall (λ p, in_vocab vocab p = true) parts →
                     Forall (λ p, in_vocab vocab p = true) st.1)
              merge_measure)
    with (fuel := fuel) (s := (parts, false))
    as (r & n & Hw & Hit & Hn & HI & _).
  - intros st HI Hc.
    destruct (merge_body_progress st Hc) as (st' & Hb & Hlt & _ & Hkeep).
    exists st'. repeat split; [exact Hb | auto | exact Hlt].
  - auto.
  - exact Hfuel.
  - exists r, n. by repeat split.
Qed.

(** [bpe_token] returns for every word, and returns keys of the table
    only. *)
Lemma bpe_token_total (token : string) :
  ∃ r, bpe_token vocab eow token = Some r ∧
       Forall (λ p, in_vocab vocab p = true) r.
Proof.
  unfold bpe_token.
  destruct (in_vocab vocab (token +:+ eow)) eqn:Hfull.
  { eexists. split; [reflexivity|]. by apply Forall_singleton. }
  destruct (utf8_chars_total token) as (chars & -> & _).
  cbn [mbind option_bind].
  destruct (trim_loop_total chars (length chars) ltac:(lia)) as (ps & -> & Hc).
  cbn [mbind option_bind].
  destruct (length ps =? 0)%nat eqn:Hlen.
  { exists ps. split; [reflexivity|].
    apply Nat.eqb_eq, nil_length_inv in Hlen. subst ps. apply Forall_nil_2. }
  destruct (append_eow_after_trim ps Hc Hlen) as (ps' & ->).
  cbn [mbind option_bind].
  destruct (filter_loop_total ps' (length ps') ltac:(lia)) as (qs & -> & Hqs).
  cbn [mbind option_bind].
  destruct (merge_loop_total qs (length qs - 1) ltac:(lia))
    as (st & n & Hw & _ & _ & Hst).
  exists st.1. unfold merge_loop. rewrite Hw. split; [reflexivity|]. auto.
Qed.

Lemma tokenize_loop_total (tokens acc : list string) :
  Forall (λ p, in_vocab vocab p = true) acc →
  ∃ r, for_each
         (λ bpe_tokens token,
            parts ← bpe_token vocab eow token;
            Some (fold_left (λ acc part, acc ++ [part]) parts bpe_tokens))
         tokens acc = Some r ∧
       Forall (λ p, in_vocab vocab p = true) r.
Proof.
  revert acc. induction tokens as [|token tokens IH]; intros acc Hacc.
  - by exists acc.
  - cbn [for_each].
    destruct (bpe_token_total token) as (parts & -> & Hparts).
    cbn [mbind option_bind]. apply IH.
    rewrite fold_left_snoc. by apply Forall_app.
Qed.

(** The budgets that [bpe_token] gives its loops are not felt: any
    larger budget returns the same. *)
Lemma trim_loop_budget (parts : list string) (fuel : nat) :
  (length parts ≤ fuel)%nat →
  trim_loop vocab eow fuel parts = trim_loop vocab eow (length parts) parts.
Proof.
  intros Hfuel.
  destruct (trim_loop_total parts (length parts) ltac:(lia)) as (r & Hr & _).
  rewrite Hr. exact (while_mono _ _ _ _ _ _ Hr Hfuel).
Qed.

Lemma filter_loop_budget (parts : list string) (fuel : nat) :
  (length parts ≤ fuel)%nat →
  filter_loop vocab fuel parts = filter_loop vocab (length parts) parts.
Proof.
  intros Hfuel.
  destruct (filter_loop_total parts (length parts) ltac:(lia)) as (r & Hr & _).
  rewrite Hr. unfold filter_loop in *.
  destruct (while filter_cond (filter_body vocab) (length parts) (O, parts))
    as [st|] eqn:Hw; [|discriminate].
  by rewrite (while_mono _ _ _ _ _ _ Hw Hfuel).
Qed.

Lemma merge_loop_budget (parts : list string) (fuel : nat) :
  (length parts - 1 ≤ fuel)%nat →
  merge_loop vocab fuel parts = merge_loop vocab (length parts - 1) parts.
Proof.
  intros Hfuel.
  destruct (merge_loop_total parts (length parts - 1) ltac:(lia))
    as (st & n & Hw & _).
  unfold merge_loop. rewrite Hw.
  by rewrite (while_mono _ _ _ _ _ _ Hw Hfuel).
Qed.

End Loops.

(** ** BPE: results *)

Lemma in_vocab_is_Some (vocab : gmap string Z) (k : string) :
  in_vocab vocab k = true ↔ is_Some (vocab !! k).
Proof.
  unfold in_vocab. destruct (vocab !! k) as [v|].
  - split; [by eexists | reflexivity].
  - split; [discriminate | by intros [? ?]].
Qed.

(** C7. When [word + eow] is a key of the table, [bpe_token] returns
    [[word + eow]] without segmenting or merging. *)
Theorem bpe_token_fast_path (vocab : gmap string Z) (eow word : string) :
  is_Some (vocab !! (word +:+ eow)) →
  bpe_token vocab eow word = Some [word +:+ eow].
Proof.
  intros Hkey%in_vocab_is_Some. unfold bpe_token. by rewrite Hkey.
Qed.

Lemma bpe_token_fast_path_witness :
  is_Some (doc_table !! ("hello" +:+ "_EOW")) ∧
  bpe_token doc_table "_EOW" "hello" = Some ["hello" +:+ "_EOW"].
Proof.
  assert (H : is_Some (doc_table !! ("hello" +:+ "_EOW")))
    by (exists 20; reflexivity).
  split; [exact H|].
  exact (bpe_token_fast_path doc_table "_EOW" "hello" H).
Defined.

(** C8. [bpe_token] returns for every table, marker and word. Its trim
    loop shortens [parts] in every iteration, its filter loop decreases
    [len(parts) - i] in every iteration, and its merge loop executes its
    body at most [len(parts) - 1] times, where an iteration that merges
    shortens [parts] by exactly one. *)
Theorem bpe_token_terminates (vocab : gmap string Z) (eow token : string) :
  (∃ r, bpe_token vocab eow token = Some r) ∧
  (∀ parts,
     trim_cond vocab eow parts = true →
     ∃ parts', trim_body parts = Some parts' ∧
               (length parts' < length parts)%nat) ∧
  (∀ st,
     filter_cond st = true →
     ∃ st', filter_body vocab st = Some st' ∧
            (length st'.2 - st'.1 < length st.2 - st.1)%nat) ∧
  (∀ parts,
     ∃ n, iterations merge_cond (merge_body vocab) (length parts - 1)
            (parts, false) = Some n ∧
          (n ≤ length parts - 1)%nat) ∧
  (∀ st st',
     merge_cond st = true → merge_body vocab st = Some st' → st'.2 = false →
     length st.1 = S (length st'.1)).
Proof.
  repeat split.
  - destruct (bpe_token_total vocab eow token) as (r & Hr & _). by exists r.
  - apply trim_body_progress.
  - intros st Hc.
    destruct (filter_body_progress vocab st Hc) as (st' & Hb & Hlt & _).
    by exists st'.
  - intros parts.
    destruct (merge_loop_total vocab parts (length parts - 1) ltac:(lia))
      as (st & n & _ & Hit & Hn & _).
    by exists n.
  - intros st st' Hc Hb Hsb.
    destruct (merge_body_progress vocab st Hc) as (st2 & Hb2 & _ & Hlen & _).
    rewrite Hb in Hb2. injection Hb2 as <-. by apply Hlen.
Qed.

Lemma bpe_token_terminates_witness :
  (∃ parts', trim_body ["a"; "b"] = Some parts' ∧
             (length parts' < length ["a"; "b"])%nat) ∧
  (∃ st', filter_body doc_table (O, ["x"; "t"]) = Some st' ∧
          (length st'.2 - st'.1 < 2 - 0)%nat) ∧
  length ["t"; "h"; "i"; "s_EOW"] = S (length ["th"; "i"; "s_EOW"]).
Proof.
  pose proof (bpe_token_terminates doc_table "_EOW" "this")
    as (_ & Htrim & Hfilter & _ & Hmerge).
  split; [exact (Htrim ["a"; "b"] eq_refl)|].
  split; [exact (Hfilter (O, ["x"; "t"]) eq_refl)|].
  exact (Hmerge (["t"; "h"; "i"; "s_EOW"], false) (["th"; "i"; "s_EOW"], false)
           eq_refl eq_refl eq_refl).
Defined.

(** C10. Every subword that [bpe_token] returns is a key of the table,
    and so is every subword that [tokenize] returns. *)
Theorem tokens_are_keys (vocab : gmap string Z) (eow : string) :
  (∀ token,
     ∃ r, bpe_token vocab eow token = Some r ∧
          Forall (λ p, is_Some (vocab !! p)) r) ∧
  (∀ tokens,
     ∃ r, tokenize vocab eow tokens = Some r ∧
          Forall (λ p, is_Some (vocab !! p)) r).
Proof.
  split.
  - intros token.
    destruct (bpe_token_total vocab eow token) as (r & Hr & Hkeys).
    exists r. split; [exact Hr|].
    eapply Forall_impl; [exact Hkeys|]. intros p. apply in_vocab_is_Some.
  - intros tokens.
    destruct (tokenize_loop_total vocab eow tokens [] (Forall_nil_2 _))
      as (r & Hr & Hkeys).
    exists r. split; [exact Hr|].
    eapply Forall_impl; [exact Hkeys|]. intros p. apply in_vocab_is_Some.
Qed.

(** [load_vocab] gives the lines of the docstring the priorities 11 down
    to 1, whatever the numbers written next to them. *)
Example load_vocab_doc_words :
  load_vocab doc_words
  = <["ii" := 1]> (<["i" := 2]> (<["s_EOW" := 3]> (<["t" := 4]> (<["h" := 5]>
    (<["!" := 6]> (<["bpe_EOW" := 7]> (<["is_EOW" := 8]> (<["th" := 9]>
    (<["world_EOW" := 10]> (<["hello_EOW" := 11]> ∅)))))))))).
Proof. reflexivity. Qed.

(** C2 as stated fails: with the numbers of the docstring as priorities
    the three pairs "ii" have priority [-2] and are never merged. *)
Lemma tokenize_iiiis_literal_table :
  tokenize doc_table "_EOW" ["iiiis"] ≠ Some ["ii"; "i"; "is_EOW"].
Proof. vm_compute. discriminate. Qed.

(** C2, as the code has it. With the numbers of the docstring as
    priorities, [tokenize(["iiiis"])] is [["i", "i", "i", "is_EOW"]]; the
    result [["ii", "i", "is_EOW"]] of the docstring is the one for the
    table that [load_vocab] builds from its lines. *)
Theorem tokenize_iiiis :
  tokenize doc_table "_EOW" ["iiiis"] = Some ["i"; "i"; "i"; "is_EOW"] ∧
  tokenize (load_vocab doc_words) "_EOW" ["iiiis"]
  = Some ["ii"; "i"; "is_EOW"].
Proof. split; reflexivity. Qed.

(** C4. With the numbers of the docstring as priorities,
    [tokenize(["hello", "world", "this", "is", "bpe"])] is
    [["hello_EOW", "world_EOW", "th", "is_EOW", "is_EOW", "bpe_EOW"]]. *)
Theorem tokenize_hello_world :
  tokenize doc_table "_EOW" ["hello"; "world"; "this"; "is"; "bpe"]
  = Some ["hello_EOW"; "world_EOW"; "th"; "is_EOW"; "is_EOW"; "bpe_EOW"].
Proof. reflexivity. Qed.

End BPEFacts.

(** ** The examples of the documentation *)

Module Examples.
Import Vocabulary BPE.

Example lookup_indices_abc :
  lookup_indices_1d (init ["a"; "b"; "c"] 0 (-1) (-1) (-1)) ["b"; "z"] = [1; 0].
Proof. reflexivity. Qed.

Example lookup_indices_2d_abc :
  lookup_indices_2d (init ["a"; "b"; "c"] 0 (-1) (-1) (-1)) [["b"]; ["z"; "c"]]
  = [[1]; [0; 2]].
Proof. reflexivity. Qed.

Example lookup_words_abc :
  lookup_words_1d (init ["a"; "b"; "c"] 0 (-1) (-1) (-1)) [0; 5] [] None
  = Some ["a"; "a"].
Proof. reflexivity. Qed.

Example lookup_words_abc_replacement :
  lookup_words_1d (init ["a"; "b"; "c"] 0 (-1) (-1) (-1)) [0; 5] []
    (Some "<unk>")
  = Some ["a"; "<unk>"].
Proof. reflexivity. Qed.

(** An empty vocabulary has no unk token to fall back on. *)
Example lookup_words_empty_vocabulary :
  lookup_words_1d (init [] 0 (-1) (-1) (-1)) [3] [] None = None.
Proof. reflexivity. Qed.

(** "h" followed by the two bytes 0xC3 0xA9 of e-acute. *)
Example utf8_chars_two_bytes :
  utf8_chars (String "h" (String "195" (String "169" "")))
  = Some ["h"; String "195" (String "169" "")].
Proof. reflexivity. Qed.

(** A lead byte whose continuation bytes are missing: the slice stops at
    the end of the string. *)
Example utf8_chars_truncated :
  utf8_chars (String "h" (String "240" (String "159" "")))
  = Some ["h"; String "240" (String "159" "")].
Proof. reflexivity. Qed.

(** No character of "xyz" is a key with the marker attached. *)
Example bpe_token_unknown : bpe_token doc_table "_EOW" "xyz" = Some [].
Proof. reflexivity. Qed.

(** The docstring of [BPE], run as written: the table comes from
    [load_vocab]. *)
Example docstring_tokenize :
  tokenize (load_vocab doc_words) "_EOW" ["hello"; "world"; "this"; "is"; "bpe"]
  = Some ["hello_EOW"; "world_EOW"; "th"; "is_EOW"; "is_EOW"; "bpe_EOW"].
Proof. reflexivity. Qed.

End Examples.

(** * Further properties *)

(** ** Python lists *)

Lemma py_index_is_Some {A : Type} (l : list A) (i : Z) :
  is_Some (py_index l i) ↔ - Z.of_nat (length l) ≤ i < Z.of_nat (length l).
Proof.
  unfold py_index. cbv zeta.
  destruct (Z.leb_spec 0 i), (Z.ltb_spec i (Z.of_nat (length l))); cbn [andb].
  - rewrite lookup_lt_is_Some. lia.
  - destruct (Z.leb_spec (- Z.of_nat (length l)) i), (Z.ltb_spec i 0);
      cbn [andb]; try lia.
    split; [by intros [? ?] | lia].
  - destruct (Z.leb_spec (- Z.of_nat (length l)) i), (Z.ltb_spec i 0);
      cbn [andb]; try lia.
    + rewrite lookup_lt_is_Some. lia.
    + split; [by intros [? ?] | lia].
  - destruct (Z.leb_spec (- Z.of_nat (length l)) i), (Z.ltb_spec i 0);
      cbn [andb]; try lia.
Qed.

(** Within [-len(l), len(l)) the element read is the one at [i mod len(l)]. *)
Lemma py_index_mod {A : Type} (l : list A) (i : Z) :
  - Z.of_nat (length l) ≤ i < Z.of_nat (length l) →
  py_index l i = l !! Z.to_nat (i `mod` Z.of_nat (length l)).
Proof.
  intros Hi. unfold py_index. cbv zeta.
  destruct (Z.leb_spec 0 i), (Z.ltb_spec i (Z.of_nat (length l))); cbn [andb];
    try lia.
  - by rewrite Z.mod_small by lia.
  - destruct (Z.leb_spec (- Z.of_nat (length l)) i), (Z.ltb_spec i 0);
      cbn [andb]; try lia.
    f_equal. f_equal.
    rewrite <- (Z.mod_add i 1 (Z.of_nat (length l))) by lia.
    rewrite Z.mod_small by lia. lia.
Qed.

Module ListHelpers.

Lemma list_max_prefix (l : list Z) (x : Z) (n : nat) :
  l !! O = Some x → (n ≤ length l - 1)%nat →
  ∃ m, for_each
         (λ max_value i, y ← py_index l (Z.of_nat i + 1); Some (Z.max max_value y))
         (seq 0 n) x = Some m ∧
       m ∈ take (S n) l ∧ ∀ y, y ∈ take (S n) l → y ≤ m.
Proof.
  intros Hx. induction n as [|n IH]; intros Hn.
  - exists x. split; [reflexivity|].
    destruct l as [|x' l]; [discriminate|]. injection Hx as ->.
    cbn [take]. split; [apply list_elem_of_here|].
    intros y Hy%list_elem_of_singleton. lia.
  - destruct (IH ltac:(lia)) as (m & Hm & Hin & Hmax).
    rewrite seq_S, for_each_app, Hm. cbn [mbind option_bind for_each plus].
    destruct (lookup_lt_is_Some_2 l (S n) ltac:(lia)) as [y Hy].
    rewrite py_index_nonneg by lia.
    replace (Z.to_nat (Z.of_nat n + 1)) with (S n) by lia.
    rewrite Hy. cbn [mbind option_bind].
    exists (Z.max m y). split; [reflexivity|].
    rewrite (take_S_r l (S n) y Hy). split.
    + apply elem_of_app.
      destruct (Z.max_spec m y) as [[_ ->]|[_ ->]].
      * right. by apply list_elem_of_singleton.
      * by left.
    + intros z [Hz|Hz%list_elem_of_singleton]%elem_of_app.
      * specialize (Hmax z Hz). lia.
      * lia.
Qed.

(** X1. [list_max] raises on the empty list; on any other list it returns
    an element of the list that no element exceeds. *)
Theorem list_max_greatest (l : list Z) :
  (l = [] → list_max l = None) ∧
  (l ≠ [] → ∃ m, list_max l = Some m ∧ m ∈ l ∧ ∀ y, y ∈ l → y ≤ m).
Proof.
  split.
  - intros ->. reflexivity.
  - intros Hne. destruct l as [|x l]; [done|].
    destruct (list_max_prefix (x :: l) x (length (x :: l) - 1) eq_refl
                ltac:(lia)) as (m & Hm & Hin & Hmax).
    rewrite take_ge in Hin, Hmax by (simpl; lia).
    exists m. split; [|by split].
    unfold list_max. rewrite py_index_nonneg by (simpl; lia).
    cbn [Z.to_nat lookup list_lookup mbind option_bind]. exact Hm.
Qed.

Lemma list_max_greatest_witness :
  ∃ m, list_max [3; 9; 2] = Some m ∧ m ∈ [3; 9; 2] ∧ ∀ y, y ∈ [3; 9; 2] → y ≤ m.
Proof.
  exact (proj2 (list_max_greatest [3; 9; 2]) ltac:(discriminate)).
Defined.

(** X2. [list_membership] answers whether [item] occurs in the list. *)
Theorem list_membership_iff (item : Z) (l : list Z) :
  list_membership item l = true ↔ item ∈ l.
Proof.
  unfold list_membership. rewrite list_membership_fold.
  split; [intros [?|?]; [discriminate | assumption] | by right].
Qed.

End ListHelpers.

(** ** Dictionaries built from [enumerate] *)

Section EnumerateFold.
Context (f : Z → Z).

Lemma last_at_exists (l : list string) (w : string) :
  w ∈ l → ∃ i, last_at l w i.
Proof.
  induction l as [|x l IH]; intros Hin; [by apply elem_of_nil in Hin|].
  destruct (decide (w ∈ l)) as [Hl|Hl].
  - destruct (IH Hl) as (i & Hi & Hlast). exists (S i). split; [exact Hi|].
    intros [|j] Hj; [lia|]. apply Hlast. lia.
  - apply elem_of_cons in Hin as [->|Hin]; [|contradiction].
    exists O. split; [reflexivity|].
    intros [|j] Hj; [lia|]. cbn. intros Hw. apply Hl.
    by eapply list_elem_of_lookup_2.
Qed.

Lemma last_at_unique (l : list string) (w : string) (i j : nat) :
  last_at l w i → last_at l w j → i = j.
Proof.
  intros [Hi Hli] [Hj Hlj].
  destruct (Nat.lt_trichotomy i j) as [Hlt|[Heq|Hgt]]; [|exact Heq|].
  - by destruct (Hli j Hlt).
  - by destruct (Hlj i Hgt).
Qed.

(** [{word: f(i) for i, word in enumerate(l, k)}] added to [m]: a word
    takes the value of its last position, and a word that is not in [l]
    keeps what [m] has. *)
Lemma enumerate_fold_lookup (l : list string) (k : Z) (m : gmap string Z)
    (w : string) :
  (∀ i, last_at l w i →
        fold_left (λ (m : gmap string Z) iw, <[iw.2 := f iw.1]> m)
          (enumerate k l) m !! w = Some (f (k + Z.of_nat i))) ∧
  (w ∉ l →
   fold_left (λ (m : gmap string Z) iw, <[iw.2 := f iw.1]> m)
     (enumerate k l) m !! w = m !! w).
Proof.
  revert k m. induction l as [|x l IH]; intros k m.
  - split; [intros i [Hi _]; discriminate | reflexivity].
  - cbn [enumerate fold_left fst snd].
    destruct (IH (k + 1) (<[x := f k]> m)) as [IHin IHout]. split.
    + intros [|i] [Hi Hlast].
      * injection Hi as ->. rewrite IHout.
        -- rewrite lookup_insert_eq. do 2 f_equal. lia.
        -- intros [j Hj]%list_elem_of_lookup.
           by destruct (Hlast (S j) ltac:(lia)).
      * rewrite (IHin i).
        -- do 2 f_equal. lia.
        -- split; [exact Hi|]. intros j Hj. apply (Hlast (S j)). lia.
    + intros [Hne Hnin]%not_elem_of_cons.
      rewrite IHout by exact Hnin. by apply lookup_insert_ne.
Qed.

Lemma enumerate_fold_Some (l : list string) (w : string) (v : Z) :
  fold_left (λ (m : gmap string Z) iw, <[iw.2 := f iw.1]> m)
    (enumerate 0 l) ∅ !! w = Some v
  ↔ ∃ i, last_at l w i ∧ v = f (Z.of_nat i).
Proof.
  destruct (enumerate_fold_lookup l 0 ∅ w) as [Hin Hout]. split.
  - intros Hv. destruct (decide (w ∈ l)) as [Hl|Hl].
    + destruct (last_at_exists l w Hl) as [i Hi]. exists i. split; [exact Hi|].
      rewrite (Hin i Hi) in Hv. injection Hv as <-. f_equal.
    + rewrite (Hout Hl), lookup_empty in Hv. discriminate.
  - intros (i & Hi & ->). rewrite (Hin i Hi). f_equal.
Qed.

Lemma enumerate_fold_None (l : list string) (w : string) :
  fold_left (λ (m : gmap string Z) iw, <[iw.2 := f iw.1]> m)
    (enumerate 0 l) ∅ !! w = None
  ↔ w ∉ l.
Proof.
  destruct (enumerate_fold_lookup l 0 ∅ w) as [Hin Hout]. split.
  - intros Hnone Hl. destruct (last_at_exists l w Hl) as [i Hi].
    rewrite (Hin i Hi) in Hnone. discriminate.
  - intros Hl. by rewrite (Hout Hl), lookup_empty.
Qed.

End EnumerateFold.

(** ** Vocabulary: the index and the two lookups *)

Module VocabularyMore.
Import Vocabulary.

(** X3. [idx] holds exactly the words of the list, each with its last
    position: a later duplicate overwrites the earlier entry. *)
Theorem idx_last_occurrence (vocab_list : list string) (unk pad bos eos : Z)
    (w : string) :
  let self := init vocab_list unk pad bos eos in
  (∀ i : Z, idx self !! w = Some i ↔
            ∃ n : nat, i = Z.of_nat n ∧ last_at vocab_list w n) ∧
  (idx self !! w = None ↔ w ∉ vocab_list).
Proof.
  cbn [idx init]. unfold index_of_words. split.
  - intros i.
    rewrite (enumerate_fold_Some (λ z, z) vocab_list w i).
    split; intros (n & H1 & H2); exists n; by split.
  - apply (enumerate_fold_None (λ z, z)).
Qed.

Lemma idx_in_vocab (self : t) (vocab_list : list string) (unk pad bos eos : Z)
    (w : string) :
  self = init vocab_list unk pad bos eos → w ∈ vocab_list →
  ∃ n : nat, vocab self !! n = Some w ∧ idx self !! w = Some (Z.of_nat n).
Proof.
  intros -> Hw. destruct (last_at_exists vocab_list w Hw) as [n Hn].
  exists n. split; [apply Hn|].
  cbn [idx init]. unfold index_of_words.
  apply (enumerate_fold_Some (λ z, z)). by exists n.
Qed.

(** X4. [lookup_indices_1d] returns one id per word, in order: a position
    of the vocabulary that holds the word when the word is in the
    vocabulary, and [unk_idx] when it is not. *)
Theorem lookup_indices_1d_pointwise (vocab_list : list string)
    (unk pad bos eos : Z) (values : list string) :
  let self := init vocab_list unk pad bos eos in
  length (lookup_indices_1d self values) = length values ∧
  ∀ (k : nat) (w : string), values !! k = Some w →
    ∃ i, lookup_indices_1d self values !! k = Some i ∧
         (w ∈ vocab_list →
          0 ≤ i < Z.of_nat (length vocab_list) ∧
          vocab_list !! Z.to_nat i = Some w) ∧
         (w ∉ vocab_list → i = unk).
Proof.
  intros self. rewrite RoundTrip.lookup_indices_1d_map. split; [apply length_map|].
  intros k w Hk. rewrite list_lookup_fmap, Hk. cbn [fmap option_fmap option_map].
  eexists. split; [reflexivity|]. split.
  - intros Hw.
    destruct (idx_in_vocab self vocab_list unk pad bos eos w eq_refl Hw)
      as (n & Hn & ->).
    cbn [default from_option id]. rewrite Nat2Z.id.
    unfold self in Hn. cbn [vocab init] in Hn.
    apply lookup_lt_Some in Hn as Hlt. split; [lia | exact Hn].
  - intros Hw.
    assert (idx self !! w = None) as ->; [|reflexivity].
    cbn [idx init self]. unfold index_of_words.
    by apply (enumerate_fold_None (λ z, z)).
Qed.

(** X5. [lookup_indices_2d] looks each row up with [lookup_indices_1d],
    keeping the rows in order. *)
Theorem lookup_indices_2d_rows (self : t) (values : list (list string)) :
  lookup_indices_2d self values = map (lookup_indices_1d self) values ∧
  length (lookup_indices_2d self values) = length values ∧
  ∀ (k : nat) (row : list string), values !! k = Some row →
    ∃ ids, lookup_indices_2d self values !! k = Some ids ∧
           length ids = length row.
Proof.
  assert (Hmap : lookup_indices_2d self values
                 = map (lookup_indices_1d self) values).
  { unfold lookup_indices_2d.
    assert (Hgen : ∀ acc,
      fold_left (λ result value, result ++ [lookup_indices_1d self value])
        values acc = acc ++ map (lookup_indices_1d self) values).
    { induction values as [|v values IH]; intros acc; cbn [fold_left map].
      - by rewrite app_nil_r.
      - rewrite IH. by rewrite <- app_assoc. }
    apply Hgen. }
  rewrite Hmap. split; [reflexivity|]. split; [apply length_map|].
  intros k row Hk. rewrite list_lookup_fmap, Hk.
  eexists. split; [reflexivity|].
  rewrite RoundTrip.lookup_indices_1d_map. apply length_map.
Qed.

(** X6. the round trip words -> ids -> words holds for every vocabulary,
    duplicates or not, as long as the words occur in it: a duplicated
    word is sent to its last position, which holds the same word. *)
Theorem lookup_round_trip_duplicates (vocab_list : list string)
    (unk pad bos eos : Z) (words : list string) :
  Forall (λ w, w ∈ vocab_list) words →
  let self := init vocab_list unk pad bos eos in
  lookup_words_1d self (lookup_indices_1d self words) [] None = Some words.
Proof.
  intros Hwords self. unfold lookup_words_1d.
  rewrite RoundTrip.lookup_indices_1d_map.
  apply (RoundTrip.round_trip_loop self words []).
  eapply Forall_impl; [exact Hwords|].
  intros w Hw. by apply (idx_in_vocab self vocab_list unk pad bos eos w).
Qed.

Lemma lookup_round_trip_duplicates_witness :
  Forall (λ w, w ∈ ["a"; "b"; "a"]) ["a"; "b"] ∧
  let self := init ["a"; "b"; "a"] 0 (-1) (-1) (-1) in
  lookup_indices_1d self ["a"; "b"] = [2; 1] ∧
  lookup_words_1d self (lookup_indices_1d self ["a"; "b"]) [] None
  = Some ["a"; "b"].
Proof.
  assert (Hw : Forall (λ w, w ∈ ["a"; "b"; "a"]) ["a"; "b"]).
  { repeat (apply Forall_cons_2; [apply list_elem_of_In; simpl; tauto|]).
    apply Forall_nil_2. }
  split; [exact Hw|]. split; [reflexivity|].
  exact (lookup_round_trip_duplicates ["a"; "b"; "a"] 0 (-1) (-1) (-1)
           ["a"; "b"] Hw).
Defined.

End VocabularyMore.

(** ** Vocabulary: [lookup_words_1d] *)

Module LookupWords.
Import Vocabulary VocabularyErrors.

Lemma lookup_words_step_acc self filter_ids unk (result : list string) id :
  lookup_words_step self filter_ids unk result id
  = (ws ← lookup_words_step self filter_ids unk [] id; Some (result ++ ws)).
Proof.
  unfold lookup_words_step.
  destruct (list_membership id filter_ids); cbn [negb mbind option_bind].
  { by rewrite app_nil_r. }
  destruct (id <? Z.of_nat (length (vocab self))).
  - by destruct (py_index (vocab self) id).
  - destruct unk; [done|]. by destruct (py_index (vocab self) (unk_idx self)).
Qed.

Lemma lookup_words_loop_acc self filter_ids unk (ids : list Z)
    (result : list string) :
  for_each (lookup_words_step self filter_ids unk) ids result
  = (ws ← for_each (lookup_words_step self filter_ids unk) ids [];
     Some (result ++ ws)).
Proof.
  revert result. induction ids as [|id ids IH]; intros result; cbn [for_each].
  - cbn. by rewrite app_nil_r.
  - rewrite (lookup_words_step_acc self filter_ids unk result id).
    destruct (lookup_words_step self filter_ids unk [] id) as [ws|];
      cbn [mbind option_bind]; [|done].
    rewrite (IH (result ++ ws)), (IH ws).
    destruct (for_each (lookup_words_step self filter_ids unk) ids [])
      as [rest|]; cbn [mbind option_bind]; [|done].
    by rewrite app_assoc.
Qed.

(** X7. decoding a concatenation of id sequences is decoding each and
    concatenating the words; it fails when either part does. *)
Theorem lookup_words_1d_app (self : t) (ids1 ids2 filter_ids : list Z)
    (unk : option string) :
  lookup_words_1d self (ids1 ++ ids2) filter_ids unk
  = (ws1 ← lookup_words_1d self ids1 filter_ids unk;
     ws2 ← lookup_words_1d self ids2 filter_ids unk;
     Some (ws1 ++ ws2)).
Proof.
  unfold lookup_words_1d. rewrite for_each_app.
  destruct (for_each (lookup_words_step self filter_ids unk) ids1 [])
    as [ws1|]; cbn [mbind option_bind]; [|done].
  apply lookup_words_loop_acc.
Qed.

Lemma lookup_words_step_unfiltered self filter_ids unk result id :
  id ∉ filter_ids →
  lookup_words_step self filter_ids unk result id
  = lookup_words_step self [] unk result id.
Proof.
  intros Hid. unfold lookup_words_step.
  rewrite (list_membership_spec id filter_ids).
  by rewrite bool_decide_eq_false_2.
Qed.

Lemma lookup_words_step_filtered self filter_ids unk result id :
  id ∈ filter_ids →
  lookup_words_step self filter_ids unk result id = Some result.
Proof.
  intros Hid. unfold lookup_words_step.
  rewrite (list_membership_spec id filter_ids).
  by rewrite bool_decide_eq_true_2.
Qed.

Lemma lookup_words_loop_filter self filter_ids unk (ids : list Z)
    (result : list string) :
  for_each (lookup_words_step self filter_ids unk) ids result
  = for_each (lookup_words_step self [] unk)
      (filter (λ id, id ∉ filter_ids) ids) result.
Proof.
  revert result. induction ids as [|id ids IH]; intros result; [reflexivity|].
  cbn [for_each]. destruct (decide (id ∈ filter_ids)) as [Hin|Hnin].
  - rewrite lookup_words_step_filtered by exact Hin. cbn [mbind option_bind].
    rewrite filter_cons_False by (intros H; by apply H). apply IH.
  - rewrite filter_cons_True by exact Hnin. cbn [for_each].
    rewrite lookup_words_step_unfiltered by exact Hnin.
    destruct (lookup_words_step self [] unk result id); cbn [mbind option_bind];
      [apply IH | reflexivity].
Qed.

(** X8. a filter list acts as if the filtered ids had been removed from
    the input beforehand. *)
Theorem lookup_words_1d_filter (self : t) (ids filter_ids : list Z)
    (unk : option string) :
  lookup_words_1d self ids filter_ids unk
  = lookup_words_1d self (filter (λ id, id ∉ filter_ids) ids) [] unk.
Proof. apply lookup_words_loop_filter. Qed.

Lemma lookup_words_step_nofilter self unk result id :
  lookup_words_step self [] unk result id
  = if id <? Z.of_nat (length (vocab self)) then
      w ← py_index (vocab self) id; Some (result ++ [w])
    else
      match unk with
      | Some tok => Some (result ++ [tok])
      | None => w ← py_index (vocab self) (unk_idx self); Some (result ++ [w])
      end.
Proof. reflexivity. Qed.

Lemma lookup_words_step_raises self unk result id :
  lookup_words_step self [] unk result id = None ↔ raises self unk id.
Proof.
  rewrite lookup_words_step_nofilter. unfold raises. cbv zeta.
  pose proof (py_index_is_Some (vocab self) id) as Hid.
  pose proof (py_index_is_Some (vocab self) (unk_idx self)) as Hunk.
  destruct (Z.ltb_spec id (Z.of_nat (length (vocab self)))) as [Hlt|Hge].
  - destruct (py_index (vocab self) id) as [w|]; cbn [mbind option_bind].
    + assert (is_Some (Some w)) as Hs%Hid by (by eexists).
      split; [discriminate | lia].
    + split; [intros _ | done]. left.
      destruct (Z.lt_ge_cases id (- Z.of_nat (length (vocab self))));
        [assumption|].
      destruct (proj2 Hid ltac:(lia)) as [? ?]. discriminate.
  - destruct unk as [tok|].
    + split; [discriminate|]. intros [?|(_ & ? & _)]; [lia | discriminate].
    + destruct (py_index (vocab self) (unk_idx self)) as [w|];
        cbn [mbind option_bind].
      * assert (is_Some (Some w)) as Hs%Hunk by (by eexists).
        split; [discriminate|]. intros [?|(_ & _ & Hn)]; [lia | by destruct Hn].
      * split; [intros _ | done]. right. repeat split; [lia|].
        intros Hr. destruct (proj2 Hunk Hr) as [? ?]. discriminate.
Qed.

Lemma lookup_words_loop_raises self unk (ids : list Z) (result : list string) :
  for_each (lookup_words_step self [] unk) ids result = None
  ↔ Exists (raises self unk) ids.
Proof.
  revert result. induction ids as [|id ids IH]; intros result; cbn [for_each].
  - rewrite Exists_nil. split; [discriminate | done].
  - rewrite Exists_cons, <- (lookup_words_step_raises self unk result id).
    destruct (lookup_words_step self [] unk result id) as [r|];
      cbn [mbind option_bind].
    + rewrite IH. split; [by right | by intros [?|?]].
    + split; [by left | done].
Qed.

(** X9. [lookup_words_1d] raises exactly when some id that is not
    filtered is below [-len(vocab)], or is [len(vocab)] or more while no
    replacement is given and [unk_idx] is out of range. *)
Theorem lookup_words_1d_raises (self : t) (ids filter_ids : list Z)
    (unk : option string) :
  lookup_words_1d self ids filter_ids unk = None
  ↔ ∃ id, id ∈ ids ∧ (id ∉ filter_ids) ∧ raises self unk id.
Proof.
  unfold lookup_words_1d.
  rewrite lookup_words_loop_filter, lookup_words_loop_raises, Exists_exists.
  split.
  - intros (id & [Hf Hin]%list_elem_of_filter & Hr). by exists id.
  - intros (id & Hin & Hf & Hr). exists id. split; [|exact Hr].
    by apply list_elem_of_filter.
Qed.

Lemma lookup_words_loop_length self unk (ids : list Z) (result r : list string) :
  for_each (lookup_words_step self [] unk) ids result = Some r →
  length r = (length result + length ids)%nat.
Proof.
  revert result. induction ids as [|id ids IH]; intros result; cbn [for_each].
  - intros [= <-]. cbn [length]. lia.
  - destruct (lookup_words_step self [] unk result id) as [r'|] eqn:Hstep;
      cbn [mbind option_bind]; [|discriminate].
    intros Hr%IH. rewrite Hr. cbn [length].
    rewrite lookup_words_step_nofilter in Hstep.
    assert (length r' = S (length result)); [|lia].
    destruct (id <? Z.of_nat (length (vocab self))).
    + destruct (py_index (vocab self) id); [|discriminate].
      injection Hstep as <-. rewrite length_app. cbn [length]. lia.
    + destruct unk.
      * injection Hstep as <-. rewrite length_app. cbn [length]. lia.
      * destruct (py_index (vocab self) (unk_idx self)); [|discriminate].
        injection Hstep as <-. rewrite length_app. cbn [length]. lia.
Qed.

(** X10. when [lookup_words_1d] returns, it returns one word for each id
    that is not filtered, so never more words than ids. *)
Theorem lookup_words_1d_length (self : t) (ids filter_ids : list Z)
    (unk : option string) (r : list string) :
  lookup_words_1d self ids filter_ids unk = Some r →
  length r = length (filter (λ id, id ∉ filter_ids) ids) ∧
  (length r ≤ length ids)%nat.
Proof.
  unfold lookup_words_1d. rewrite lookup_words_loop_filter.
  intros Hr%lookup_words_loop_length. cbn [length] in Hr.
  split; [lia|]. rewrite Hr. apply length_filter.
Qed.

Lemma lookup_words_1d_length_witness :
  let self := init ["a"; "b"; "c"] 0 (-1) (-1) (-1) in
  lookup_words_1d self [0; 7; 2; 7] [7] None = Some ["a"; "c"] ∧
  length ["a"; "c"] = length (filter (λ id, id ∉ [7]) [0; 7; 2; 7]) ∧
  (length ["a"; "c"] ≤ length [0; 7; 2; 7])%nat.
Proof.
  split; [reflexivity|].
  exact (lookup_words_1d_length (init ["a"; "b"; "c"] 0 (-1) (-1) (-1))
           [0; 7; 2; 7] [7] None ["a"; "c"] eq_refl).
Defined.

Lemma lookup_words_in_range self unk (ids : list Z) (result : list string) :
  Forall (λ id, - Z.of_nat (length (vocab self)) ≤ id
                < Z.of_nat (length (vocab self))) ids →
  ∃ ws, for_each (lookup_words_step self [] unk) ids result
        = Some (result ++ ws) ∧
        Forall2 (λ id w, py_index (vocab self) id = Some w) ids ws.
Proof.
  intros Hids. revert result.
  induction Hids as [|id ids Hid Hids IH]; intros result; cbn [for_each].
  - exists []. rewrite app_nil_r. split; [reflexivity | constructor].
  - rewrite lookup_words_step_nofilter.
    destruct (Z.ltb_spec id (Z.of_nat (length (vocab self)))); [|lia].
    destruct (proj2 (py_index_is_Some (vocab self) id) Hid) as [w Hw].
    rewrite Hw. cbn [mbind option_bind].
    destruct (IH (result ++ [w])) as (ws & -> & Hws).
    exists (w :: ws). rewrite <- app_assoc. split; [reflexivity|].
    by constructor.
Qed.

(** X11. with no filter, ids within [-len(vocab), len(vocab)) are all
    decoded, a negative id counting from the end of the vocabulary: the
    word for [id] is the token at [id mod len(vocab)]. *)
Theorem lookup_words_1d_negative_ids (self : t) (ids : list Z)
    (unk : option string) :
  Forall (λ id, - Z.of_nat (length (vocab self)) ≤ id
                < Z.of_nat (length (vocab self))) ids →
  ∃ ws, lookup_words_1d self ids [] unk = Some ws ∧
        Forall2 (λ id w,
                   vocab self !! Z.to_nat (id `mod` Z.of_nat (length (vocab self)))
                   = Some w) ids ws.
Proof.
  intros Hids.
  destruct (lookup_words_in_range self unk ids [] Hids) as (ws & Hws & Hall).
  exists ws. split; [exact Hws|].
  clear Hws. induction Hall as [|id w ids ws Hw Hall IH]; [constructor|].
  apply Forall_cons in Hids as [Hid Hids].
  constructor; [|by apply IH].
  by rewrite <- py_index_mod.
Qed.

Lemma lookup_words_1d_negative_ids_witness :
  let self := init ["a"; "b"; "c"] 0 (-1) (-1) (-1) in
  ∃ ws, lookup_words_1d self [-1; 1; -3] [] None = Some ws ∧
        Forall2 (λ id w, vocab self !! Z.to_nat (id `mod` 3) = Some w)
          [-1; 1; -3] ws.
Proof.
  apply (lookup_words_1d_negative_ids (init ["a"; "b"; "c"] 0 (-1) (-1) (-1))
           [-1; 1; -3] None).
  repeat (apply Forall_cons_2; [simpl; lia|]). apply Forall_nil_2.
Defined.

(** X12. for a duplicate-free vocabulary and ids that are positions of it,
    the round trip ids -> words -> ids returns the ids. *)
Theorem lookup_round_trip_ids (vocab_list : list string) (unk pad bos eos : Z)
    (ids : list Z) (replacement : option string) :
  NoDup vocab_list →
  Forall (λ id, 0 ≤ id < Z.of_nat (length vocab_list)) ids →
  let self := init vocab_list unk pad bos eos in
  ∃ ws, lookup_words_1d self ids [] replacement = Some ws ∧
        lookup_indices_1d self ws = ids.
Proof.
  intros Hnd Hids self.
  destruct (lookup_words_in_range self replacement ids []) as (ws & Hws & Hall).
  { eapply Forall_impl; [exact Hids|]. intros id Hid.
    cbn beta in Hid. unfold self. cbn [vocab init]. lia. }
  exists ws. split; [exact Hws|].
  rewrite RoundTrip.lookup_indices_1d_map. clear Hws.
  unfold self in *. cbn [vocab init unk_idx] in *.
  induction Hall as [|i w ids ws Hw Hall IH]; [reflexivity|].
  apply Forall_cons in Hids as [Hi Hids]. cbn beta in Hi.
  cbn [map]. rewrite IH by exact Hids. f_equal.
  rewrite py_index_nonneg in Hw by lia.
  rewrite (RoundTrip.init_idx_lookup vocab_list unk pad bos eos
             (Z.to_nat i) w Hnd Hw).
  cbn. lia.
Qed.

Lemma lookup_round_trip_ids_witness :
  NoDup ["a"; "b"; "c"] ∧
  Forall (λ id, 0 ≤ id < Z.of_nat (length ["a"; "b"; "c"])) [2; 0; 2] ∧
  let self := init ["a"; "b"; "c"] 0 (-1) (-1) (-1) in
  ∃ ws, lookup_words_1d self [2; 0; 2] [] None = Some ws ∧
        lookup_indices_1d self ws = [2; 0; 2].
Proof.
  assert (Hnd : NoDup ["a"; "b"; "c"])
    by (apply (bool_decide_unpack _); vm_compute; exact I).
  assert (Hids : Forall (λ id, 0 ≤ id < Z.of_nat (length ["a"; "b"; "c"]))
                   [2; 0; 2]).
  { repeat (apply Forall_cons_2; [simpl; lia|]). apply Forall_nil_2. }
  split; [exact Hnd|]. split; [exact Hids|].
  exact (lookup_round_trip_ids ["a"; "b"; "c"] 0 (-1) (-1) (-1) [2; 0; 2]
           None Hnd Hids).
Defined.

End LookupWords.

(** ** utf8_chars: the shape of the characters *)

Module Utf8More.

Lemma num_bytes_le (byte : Z) : (num_bytes byte ≤ 8)%nat.
Proof. unfold num_bytes. repeat case_match; lia. Qed.

Lemma char_width_bounds (byte : Z) : (1 ≤ char_width byte ≤ 8)%nat.
Proof.
  unfold char_width. pose proof (num_bytes_pos byte). pose proof (num_bytes_le byte).
  case_match; lia.
Qed.

Lemma utf8_body_width (s : string) (i : nat) (chars : list string) :
  utf8_body s (i, chars)
  = (byte ← ord_at s i;
     Some ((i + char_width byte)%nat, chars ++ [substring i (char_width byte) s])).
Proof.
  unfold utf8_body, char_width.
  destruct (ord_at s i) as [byte|]; [|reflexivity]. cbn [mbind option_bind].
  by destruct (byte <? 128).
Qed.

Lemma length_substring (i n : nat) (s : string) :
  String.length (substring i n s) = (n `min` (String.length s - i))%nat.
Proof.
  revert i n. induction s as [|c s IH]; intros [|i] [|n]; cbn; try reflexivity.
  - by rewrite IH, Nat.sub_0_r.
  - apply IH.
  - apply IH.
Qed.

Lemma ord_at_lt (s : string) (i : nat) :
  (i < String.length s)%nat → is_Some (ord_at s i).
Proof.
  intros [c Hc]%string_get_lt. unfold ord_at. rewrite Hc. by eexists.
Qed.

(** An invariant of the loop of [utf8_chars] that holds before the first
    iteration and is kept by every iteration holds of what is returned. *)
Lemma utf8_chars_invariant (s : string) (I : nat → list string → Prop) :
  I O [] →
  (∀ i chars byte,
     I i chars → (i < String.length s)%nat → ord_at s i = Some byte →
     I (i + char_width byte)%nat (chars ++ [substring i (char_width byte) s])) →
  ∃ i chars, utf8_chars s = Some chars ∧ I i chars ∧ (String.length s ≤ i)%nat.
Proof.
  intros Hinit Hstep.
  destruct (while_total (utf8_cond s) (utf8_body s)
    (λ st, I st.1 st.2) (λ st, (String.length s - st.1)%nat))
    with (fuel := String.length s) (s := (O, @nil string))
    as (r & n & Hw & _ & _ & HI & Hc).
  - intros [i chars] HI Hc. unfold utf8_cond in Hc. cbn [fst snd] in *.
    apply Nat.ltb_lt in Hc.
    destruct (ord_at_lt s i Hc) as [byte Hbyte].
    rewrite utf8_body_width, Hbyte. cbn [mbind option_bind].
    eexists. split; [reflexivity|]. cbn [fst snd].
    split; [by apply Hstep|].
    pose proof (char_width_bounds byte). lia.
  - exact Hinit.
  - cbn [fst snd]. lia.
  - destruct r as [i chars]. exists i, chars.
    unfold utf8_chars, utf8_chars_fuel. rewrite Hw.
    unfold utf8_cond in Hc. cbn [fst snd] in *. apply Nat.ltb_ge in Hc.
    by repeat split.
Qed.

Lemma utf8_chars_count (s : string) (chars : list string) :
  utf8_chars s = Some chars → (length chars ≤ String.length s)%nat.
Proof.
  intros Hchars.
  destruct (utf8_chars_invariant s
    (λ i chars, (length chars ≤ i `min` String.length s)%nat))
    as (i & chars' & Hchars' & Hlen & _).
  - cbn. lia.
  - intros i cs byte Hlen Hi _. rewrite length_app. cbn [length].
    pose proof (char_width_bounds byte). lia.
  - rewrite Hchars in Hchars'. injection Hchars' as <-. lia.
Qed.

(** X13. no character that [utf8_chars] returns is empty or longer than
    eight bytes, and there are at most [len(s)] of them. *)
Theorem utf8_chars_sizes (s : string) :
  ∃ chars, utf8_chars s = Some chars ∧
           Forall (λ c, (1 ≤ String.length c ≤ 8)%nat) chars ∧
           (length chars ≤ String.length s)%nat.
Proof.
  destruct (utf8_chars_invariant s
    (λ i chars, Forall (λ c, (1 ≤ String.length c ≤ 8)%nat) chars ∧
                (length chars ≤ i `min` String.length s)%nat))
    as (i & chars & Hchars & [Hall Hlen] & _).
  - split; [constructor | cbn; lia].
  - intros i chars byte [Hall Hlen] Hi _. split.
    + apply Forall_app. split; [exact Hall|]. apply Forall_singleton.
      rewrite length_substring. pose proof (char_width_bounds byte). lia.
    + rewrite length_app. cbn [length].
      pose proof (char_width_bounds byte). lia.
  - exists chars. repeat split; [exact Hchars | exact Hall | lia].
Qed.

(** X14. every character that [utf8_chars] returns starts with a byte
    whose width it does not exceed, and every character but the last has
    exactly that width: only the end of the string cuts a character
    short. *)
Theorem utf8_chars_widths (s : string) :
  ∃ chars, utf8_chars s = Some chars ∧
    ∀ (k : nat) (c : string), chars !! k = Some c →
      ∃ byte, ord_at c 0 = Some byte ∧
              (String.length c ≤ char_width byte)%nat ∧
              ((k + 1 < length chars)%nat →
               String.length c = char_width byte).
Proof.
  set (headed := λ c : string,
         ∃ byte, ord_at c 0 = Some byte ∧
                 (String.length c ≤ char_width byte)%nat).
  set (full := λ c : string,
         ∃ byte, ord_at c 0 = Some byte ∧ String.length c = char_width byte).
  destruct (utf8_chars_invariant s
    (λ i chars, Forall headed chars ∧
                ((i ≤ String.length s)%nat → Forall full chars) ∧
                (∀ k c, chars !! k = Some c → (k + 1 < length chars)%nat →
                        full c)))
    as (i & chars & Hchars & (Hhead & _ & Hfull) & _).
  - repeat split; [constructor | constructor |]. intros k c Hk. discriminate.
  - intros i chars byte (Hhead & Hle & Hfull) Hi Hbyte.
    assert (Hord : ord_at (substring i (char_width byte) s) 0 = Some byte).
    { unfold ord_at in *.
      destruct (String.get i s) as [a|] eqn:Hget; [|discriminate].
      pose proof (char_width_bounds byte) as [Hw _].
      destruct (char_width byte) as [|w]; [lia|].
      assert (String.get 0 (substring i (S w) s) = Some a) as ->; [|exact Hbyte].
      clear -Hget. revert i Hget.
      induction s as [|c s IH]; intros [|i] Hget; cbn in *;
        try discriminate; [exact Hget | by apply IH]. }
    repeat split.
    + apply Forall_app. split; [exact Hhead|]. apply Forall_singleton.
      exists byte. split; [exact Hord|]. rewrite length_substring. lia.
    + intros Hnext. apply Forall_app. split; [apply Hle; lia|].
      apply Forall_singleton. exists byte. split; [exact Hord|].
      rewrite length_substring. lia.
    + intros k c Hk Hlt. rewrite length_app in Hlt. cbn [length] in Hlt.
      rewrite lookup_app_l in Hk by lia.
      eapply Forall_lookup_1; [apply Hle; lia | exact Hk].
  - exists chars. split; [exact Hchars|]. intros k c Hk.
    destruct (Forall_lookup_1 _ _ _ _ Hhead Hk) as (byte & Hord & Hlen).
    exists byte. repeat split; [exact Hord | exact Hlen|].
    intros Hlt. destruct (Hfull k c Hk Hlt) as (byte' & Hord' & Hlen').
    rewrite Hord in Hord'. by injection Hord' as <-.
Qed.

Lemma length_list_ascii (s : string) :
  length (list_ascii_of_string s) = String.length s.
Proof. induction s as [|a s IH]; cbn; [reflexivity | by rewrite IH]. Qed.

Lemma get_list_ascii (s : string) (i : nat) :
  String.get i s = list_ascii_of_string s !! i.
Proof.
  revert i. induction s as [|a s IH]; intros [|i]; cbn; try reflexivity.
  apply IH.
Qed.

Lemma substring_one (s : string) (i : nat) (a : ascii) :
  String.get i s = Some a → substring i 1 s = String a "".
Proof.
  revert i. induction s as [|c s IH]; intros [|i] Hget; cbn in *;
    try discriminate.
  - injection Hget as ->. by destruct s.
  - by apply IH.
Qed.

(** X15. on a string whose bytes are all below 0x80, [utf8_chars] returns
    the bytes one by one. *)
Theorem utf8_chars_ascii (s : string) :
  (∀ i byte, ord_at s i = Some byte → byte < 128) →
  utf8_chars s = Some (map (λ a, String a "") (list_ascii_of_string s)).
Proof.
  intros Hascii.
  destruct (utf8_chars_invariant s
    (λ i chars, chars = map (λ a, String a "") (take i (list_ascii_of_string s))))
    as (i & chars & Hchars & -> & Hi).
  - reflexivity.
  - intros i chars byte -> Hi Hbyte.
    pose proof (Hascii i byte Hbyte) as Hlt.
    unfold char_width. destruct (Z.ltb_spec byte 128); [|lia].
    unfold ord_at in Hbyte.
    destruct (String.get i s) as [a|] eqn:Hget; [|discriminate].
    rewrite (substring_one s i a Hget).
    rewrite get_list_ascii in Hget.
    replace (i + 1)%nat with (S i) by lia.
    rewrite (take_S_r _ _ _ Hget). by rewrite map_app.
  - rewrite Hchars. by rewrite take_ge by (rewrite length_list_ascii; lia).
Qed.

Lemma utf8_chars_ascii_witness :
  (∀ i byte, ord_at "this" i = Some byte → byte < 128) ∧
  utf8_chars "this" = Some ["t"; "h"; "i"; "s"].
Proof.
  assert (H : ∀ i byte, ord_at "this" i = Some byte → byte < 128).
  { intros [|[|[|[|i]]]] byte Hb; vm_compute in Hb; try discriminate;
      injection Hb as <-; lia. }
  split; [exact H|]. exact (utf8_chars_ascii "this" H).
Defined.

Lemma length_string_drop (j : nat) (s : string) :
  String.length (string_drop j s) = (String.length s - j)%nat.
Proof.
  revert j. induction s as [|a s IH]; intros [|j]; cbn; try reflexivity.
  apply IH.
Qed.

Lemma get_string_drop (j i : nat) (s : string) :
  String.get i (string_drop j s) = String.get (j + i) s.
Proof.
  revert j. induction s as [|a s IH]; intros [|j]; cbn; try reflexivity.
  all: first [apply IH | by destruct i].
Qed.

Lemma substring_string_drop (j i n : nat) (s : string) :
  substring i n (string_drop j s) = substring (j + i) n s.
Proof.
  revert j. induction s as [|a s IH]; intros [|j]; cbn; try reflexivity.
  all: first [apply IH | by destruct i, n].
Qed.

(** The loop of [utf8_chars] on [s] from byte [j + i] runs like the loop
    on [s[j:]] from byte [i]. *)
Lemma utf8_while_shift (s : string) (j fuel i : nat) (pre chars : list string) :
  while (utf8_cond s) (utf8_body s) fuel ((j + i)%nat, pre ++ chars)
  = (st ← while (utf8_cond (string_drop j s)) (utf8_body (string_drop j s))
            fuel (i, chars);
     Some ((j + st.1)%nat, pre ++ st.2)).
Proof.
  assert (Hcond : ∀ i chars,
            utf8_cond s ((j + i)%nat, pre ++ chars)
            = utf8_cond (string_drop j s) (i, chars)).
  { intros i' chars'. unfold utf8_cond. cbn [fst]. rewrite length_string_drop.
    destruct (Nat.ltb_spec (j + i') (String.length s)),
             (Nat.ltb_spec i' (String.length s - j)); try lia; reflexivity. }
  revert i chars. induction fuel as [|fuel IH]; intros i chars; cbn [while];
    rewrite Hcond; destruct (utf8_cond (string_drop j s) (i, chars));
    try reflexivity.
  rewrite !utf8_body_width. unfold ord_at. rewrite get_string_drop.
  destruct (String.get (j + i) s) as [a|]; [|reflexivity].
  cbn [mbind option_bind]. rewrite substring_string_drop.
  rewrite <- app_assoc, <- Nat.add_assoc. apply IH.
Qed.

(** X16. [utf8_chars] works from left to right: on a non-empty string it
    returns the first [char_width] bytes followed by the characters of
    the rest of the string. *)
Theorem utf8_chars_unfold (s : string) (byte : Z) :
  ord_at s 0 = Some byte →
  ∃ rest, utf8_chars (string_drop (char_width byte) s) = Some rest ∧
          utf8_chars s = Some (substring 0 (char_width byte) s :: rest).
Proof.
  intros Hbyte.
  destruct (utf8_chars_total (string_drop (char_width byte) s))
    as (rest & Hrest & _).
  exists rest. split; [exact Hrest|].
  destruct s as [|a s]; [discriminate|].
  pose proof (char_width_bounds byte) as [Hw _].
  unfold utf8_chars, utf8_chars_fuel. cbn [String.length while].
  unfold utf8_cond at 1. cbn [fst String.length Nat.ltb Nat.leb].
  rewrite utf8_body_width, Hbyte. cbn [mbind option_bind].
  pose proof (utf8_while_shift (String a s) (char_width byte)
                (String.length s) 0
                [substring 0 (char_width byte) (String a s)] []) as Hshift.
  rewrite Nat.add_0_r, app_nil_r in Hshift. cbn [plus app]. rewrite Hshift.
  rewrite <- (utf8_chars_fuel_enough _ (String.length s)) in Hrest.
  2:{ rewrite length_string_drop. cbn [String.length]. lia. }
  unfold utf8_chars_fuel in Hrest.
  destruct (while _ _ (String.length s) (O, [])) as [st|];
    cbn [mbind option_bind] in *; [|discriminate].
  injection Hrest as ->. reflexivity.
Qed.

Lemma utf8_chars_unfold_witness :
  ∃ rest, utf8_chars (string_drop (char_width 104) "hi") = Some rest ∧
          utf8_chars "hi" = Some (substring 0 (char_width 104) "hi" :: rest).
Proof. exact (utf8_chars_unfold "hi" 104 eq_refl). Defined.

End Utf8More.

(** ** BPE: the table of [load_vocab] *)

Module LoadVocab.
Import BPE.

(** X17. [load_vocab] maps exactly the words it is given, each to
    [num_words - i] for the last position [i] of the word, so a repeated
    word ends up with the priority of its last line. *)
Theorem load_vocab_lookup (words : list string) (w : string) :
  (∀ v, load_vocab words !! w = Some v ↔
        ∃ i : nat, last_at words w i ∧
                   v = Z.of_nat (length words) - Z.of_nat i) ∧
  (load_vocab words !! w = None ↔ w ∉ words).
Proof.
  unfold load_vocab. cbv zeta. split.
  - intros v.
    apply (enumerate_fold_Some (λ z, Z.of_nat (length words) - z) words w v).
  - apply (enumerate_fold_None (λ z, Z.of_nat (length words) - z) words w).
Qed.

(** X18. the priorities that [load_vocab] assigns lie between 1 and the
    number of words, and two different words never get the same one: a
    loaded table has no negative priorities and no ties. *)
Theorem load_vocab_no_ties (words : list string) :
  (∀ w v, load_vocab words !! w = Some v →
          1 ≤ v ≤ Z.of_nat (length words)) ∧
  (∀ w1 w2 v, load_vocab words !! w1 = Some v →
              load_vocab words !! w2 = Some v → w1 = w2).
Proof.
  unfold load_vocab. cbv zeta. split.
  - intros w v (i & [Hi _] & ->)%(enumerate_fold_Some
      (λ z, Z.of_nat (length words) - z)).
    apply lookup_lt_Some in Hi. lia.
  - intros w1 w2 v
      (i1 & [H1 _] & ->)%(enumerate_fold_Some (λ z, Z.of_nat (length words) - z))
      (i2 & [H2 _] & Heq)%(enumerate_fold_Some (λ z, Z.of_nat (length words) - z)).
    assert (i1 = i2) as -> by lia. rewrite H1 in H2. by injection H2.
Qed.

(** X19. among distinct words, an earlier line has the higher priority. *)
Theorem load_vocab_order (words : list string) (i j : nat) (wi wj : string) :
  NoDup words → words !! i = Some wi → words !! j = Some wj → (i < j)%nat →
  ∃ vi vj, load_vocab words !! wi = Some vi ∧
           load_vocab words !! wj = Some vj ∧ vj < vi.
Proof.
  intros Hnd Hi Hj Hlt.
  assert (Hlast : ∀ k w, words !! k = Some w → last_at words w k).
  { intros k w Hk. split; [exact Hk|]. intros k' Hk' Hw.
    pose proof (NoDup_lookup _ _ _ _ Hnd Hk Hw). lia. }
  exists (Z.of_nat (length words) - Z.of_nat i),
         (Z.of_nat (length words) - Z.of_nat j).
  unfold load_vocab. cbv zeta. repeat split; [| | lia].
  - apply (enumerate_fold_Some (λ z, Z.of_nat (length words) - z)).
    exists i. by split; [apply Hlast|].
  - apply (enumerate_fold_Some (λ z, Z.of_nat (length words) - z)).
    exists j. by split; [apply Hlast|].
Qed.

Lemma load_vocab_order_witness :
  ∃ vi vj, load_vocab doc_words !! "th" = Some vi ∧
           load_vocab doc_words !! "i" = Some vj ∧ vj < vi.
Proof.
  apply (load_vocab_order doc_words 2 9 "th" "i");
    [apply (bool_decide_unpack _); vm_compute; exact I
    | reflexivity | reflexivity | lia].
Defined.

End LoadVocab.

(** ** BPE: what the three loops compute *)

Module BPEMore.
Import BPE BPESpec BPEFacts.

Lemma string_concat_app (l1 l2 : list string) :
  String.concat "" (l1 ++ l2) = String.concat "" l1 +:+ String.concat "" l2.
Proof.
  induction l2 as [|x l2 IH] using rev_ind.
  - by rewrite app_nil_r, string_app_nil_r.
  - by rewrite app_assoc, !string_concat_snoc, IH, string_app_assoc.
Qed.

Section Loops.
Context (vocab : gmap string Z) (eow : string).

Lemma trim_cond_true (parts : list string) :
  trim_cond vocab eow parts = true →
  ∃ init p, parts = init ++ [p] ∧ in_vocab vocab (p +:+ eow) = false ∧
            trim_body parts = Some init.
Proof.
  unfold trim_cond. rewrite py_index_last.
  intros [Hlen Hlast]%andb_true_iff.
  destruct (last parts) as [p|] eqn:Hp; [|discriminate].
  apply last_Some in Hp as [init ->].
  exists init, p. repeat split.
  - by apply negb_true_iff.
  - unfold trim_body. destruct (init ++ [p]) eqn:Hnil.
    + by destruct init.
    + rewrite <- Hnil, length_app. cbn [length].
      replace (length init + 1 - 1)%nat with (length init) by lia.
      by rewrite take_app_length.
Qed.

Lemma trim_cond_false (parts : list string) :
  trim_cond vocab eow parts = false →
  parts = [] ∨ ∃ init p, parts = init ++ [p] ∧ in_vocab vocab (p +:+ eow) = true.
Proof.
  unfold trim_cond. rewrite py_index_last. intros Hc.
  destruct (last parts) as [p|] eqn:Hp.
  - right. apply last_Some in Hp as [init ->]. exists init, p.
    split; [reflexivity|].
    apply andb_false_iff in Hc as [Hc|Hc].
    + apply Nat.ltb_ge in Hc. rewrite length_app in Hc. cbn in Hc. lia.
    + by apply negb_false_iff.
  - left. by apply last_None.
Qed.

Lemma trim_loop_split (parts : list string) :
  ∃ kept dropped,
    trim_loop vocab eow (length parts) parts = Some kept ∧
    parts = kept ++ dropped ∧
    Forall (λ p, in_vocab vocab (p +:+ eow) = false) dropped ∧
    (kept = [] ∨
     ∃ init p, kept = init ++ [p] ∧ in_vocab vocab (p +:+ eow) = true).
Proof.
  destruct (while_total (trim_cond vocab eow) trim_body
    (λ ps, ∃ dropped, parts = ps ++ dropped ∧
                      Forall (λ p, in_vocab vocab (p +:+ eow) = false) dropped)
    (λ ps, length ps)) with (fuel := length parts) (s := parts)
    as (kept & n & Hw & _ & _ & (dropped & Hparts & Hdropped) & Hc).
  - intros ps (dropped & Hparts & Hdropped) Hc.
    destruct (trim_cond_true ps Hc) as (init & p & -> & Hp & Hbody).
    exists init. split; [exact Hbody|]. split.
    + exists (p :: dropped). split; [by rewrite Hparts, <- app_assoc|].
      by constructor.
    + rewrite length_app. cbn. lia.
  - exists []. by rewrite app_nil_r.
  - lia.
  - exists kept, dropped. repeat split; try assumption.
    by apply trim_cond_false.
Qed.

(** X20. the trim loop returns the longest prefix of [parts] that is empty
    or ends in an element that is a key with [eow] attached: everything
    it drops fails that test. *)
Theorem trim_loop_prefix (parts : list string) :
  ∃ kept dropped,
    trim_loop vocab eow (length parts) parts = Some kept ∧
    parts = kept ++ dropped ∧
    Forall (λ p, vocab !! (p +:+ eow) = None) dropped ∧
    (kept = [] ∨
     ∃ init p, kept = init ++ [p] ∧ is_Some (vocab !! (p +:+ eow))).
Proof.
  destruct (trim_loop_split parts) as (kept & dropped & Hk & Hp & Hd & Hlast).
  exists kept, dropped. repeat split; try assumption.
  - eapply Forall_impl; [exact Hd|]. intros p. unfold in_vocab.
    by destruct (vocab !! (p +:+ eow)).
  - destruct Hlast as [->|(init & p & -> & Hin)]; [by left|].
    right. exists init, p. split; [reflexivity|]. by apply in_vocab_is_Some.
Qed.

Lemma filter_body_filter (parts : list string) (st : nat * list string) :
  filter_cond st = true →
  filter (λ p, in_vocab vocab p = true) parts
  = take st.1 st.2 ++ filter (λ p, in_vocab vocab p = true) (drop st.1 st.2) →
  ∃ st', filter_body vocab st = Some st' ∧
         (length st'.2 - st'.1 < length st.2 - st.1)%nat ∧
         filter (λ p, in_vocab vocab p = true) parts
         = take st'.1 st'.2
           ++ filter (λ p, in_vocab vocab p = true) (drop st'.1 st'.2).
Proof.
  destruct st as [i ps]. unfold filter_cond. cbn [fst snd].
  intros Hc%Nat.ltb_lt Hinv.
  destruct (lookup_lt_is_Some_2 ps i Hc) as [p Hp].
  unfold filter_body. rewrite Hp. cbn [mbind option_bind].
  rewrite (drop_S ps p i Hp) in Hinv.
  destruct (in_vocab vocab p) eqn:Hin; cbn [negb];
    eexists; (split; [reflexivity|]); cbn [fst snd].
  - split; [lia|].
    rewrite filter_cons_True in Hinv by exact Hin.
    replace (i + 1)%nat with (S i) by lia.
    rewrite (take_S_r ps i p Hp), <- app_assoc. exact Hinv.
  - split; [rewrite length_delete by (by eexists); lia|].
    rewrite filter_cons_False in Hinv by (by rewrite Hin).
    rewrite delete_take_drop.
    rewrite take_app_le by (rewrite length_take; lia).
    rewrite take_take. replace (i `min` i)%nat with i by lia.
    rewrite drop_app_length' by (rewrite length_take; lia).
    exact Hinv.
Qed.

Lemma filter_loop_filter (parts : list string) (fuel : nat) :
  (length parts ≤ fuel)%nat →
  filter_loop vocab fuel parts
  = Some (filter (λ p, in_vocab vocab p = true) parts).
Proof.
  intros Hfuel.
  destruct (while_total filter_cond (filter_body vocab)
    (λ st, filter (λ p, in_vocab vocab p = true) parts
           = take st.1 st.2
             ++ filter (λ p, in_vocab vocab p = true) (drop st.1 st.2))
    (λ st, (length st.2 - st.1)%nat))
    with (fuel := fuel) (s := (O, parts))
    as (r & n & Hw & _ & _ & HI & Hc).
  - intros st HI Hc.
    destruct (filter_body_filter parts st Hc HI) as (st' & Hb & Hlt & HI').
    by exists st'.
  - reflexivity.
  - cbn [fst snd]. lia.
  - unfold filter_loop. rewrite Hw. cbn [mbind option_bind]. f_equal.
    unfold filter_cond in Hc. apply Nat.ltb_ge in Hc.
    rewrite HI, take_ge, drop_ge by lia. by rewrite app_nil_r.
Qed.

(** X21. the filter loop, which pops in place while it walks the list,
    returns the elements of [parts] that are keys of the table, in their
    order. *)
Theorem filter_loop_keeps_keys (parts : list string) (extra : nat) :
  filter_loop vocab (length parts + extra) parts
  = Some (filter (λ p, is_Some (vocab !! p)) parts).
Proof.
  rewrite (filter_loop_filter parts (length parts + extra)) by lia. f_equal.
  apply list_filter_iff. intros p. apply in_vocab_is_Some.
Qed.

(** The rule of the merge loop: a property of [parts] that every merge
    of an adjacent pair with a priority of 0 or more keeps, holds of what
    the loop returns; and no adjacent pair of what it returns has a
    priority above [-1]. *)
Lemma merge_loop_rule (P : list string → Prop) (parts : list string) :
  P parts →
  (∀ ps k p q v,
     P ps → ps !! k = Some p → ps !! (k + 1)%nat = Some q →
     vocab !! (p +:+ q) = Some v → 0 ≤ v →
     P (take k ps ++ [p +:+ q] ++ drop (k + 2) ps)) →
  ∃ r, merge_loop vocab (length parts - 1) parts = Some r ∧ P r ∧
       ∀ j x, pair_priority vocab r j = Some x → x ≤ NOT_IN_VOCAB.
Proof.
  intros HP Hmerge.
  destruct (while_total merge_cond (merge_body vocab)
    (λ st, P st.1 ∧
           (st.2 = true →
            ∀ j x, pair_priority vocab st.1 j = Some x → x ≤ NOT_IN_VOCAB))
    merge_measure)
    with (fuel := (length parts - 1)%nat) (s := (parts, false))
    as (r & n & Hw & _ & _ & [HPr Hlow] & Hc).
  - intros [ps sb] [HPs _] Hc.
    destruct (merge_body_progress vocab (ps, sb) Hc) as (st' & Hb & Hlt & _).
    exists st'. split; [exact Hb|]. split; [|exact Hlt].
    destruct (merge_body_spec vocab ps sb)
      as [(Hnone & _ & Hbody)
         |(k & v & p & q & _ & _ & Hv & Hp & Hq & Hpq & _ & Hbody & _)];
      rewrite Hbody in Hb; injection Hb as <-; cbn [fst snd].
    + by split.
    + unfold merge_cond in Hc. cbn [fst snd] in Hc.
      apply andb_true_iff in Hc as [_ Hsb%negb_true_iff]. subst sb.
      split; [|discriminate].
      apply (Hmerge ps k p q v); try assumption. unfold NOT_IN_VOCAB in Hv. lia.
  - split; [exact HP | discriminate].
  - cbn. lia.
  - exists r.1. unfold merge_loop. rewrite Hw. split; [reflexivity|].
    split; [exact HPr|].
    unfold merge_cond in Hc. apply andb_false_iff in Hc as [Hc|Hc].
    + apply Nat.ltb_ge in Hc. intros j x Hx%pair_priority_lt. lia.
    + apply negb_false_iff in Hc. by apply Hlow.
Qed.

Lemma append_eow_snoc (init : list string) (p : string) :
  append_eow eow (init ++ [p]) = Some (init ++ [p +:+ eow]).
Proof.
  unfold append_eow. rewrite py_index_last, last_snoc. cbn [mbind option_bind].
  f_equal. rewrite length_app. cbn [length].
  replace (length init + 1 - 1)%nat with (length init + 0)%nat by lia.
  by rewrite insert_app_r.
Qed.

Lemma parts_split (ps : list string) (k : nat) (p q : string) :
  ps !! k = Some p → ps !! (k + 1)%nat = Some q →
  ps = take k ps ++ [p; q] ++ drop (k + 2) ps.
Proof.
  intros Hp Hq. rewrite <- (take_drop k ps) at 1. f_equal.
  rewrite (drop_S ps p k Hp).
  replace (k + 1)%nat with (S k) in Hq by lia.
  rewrite (drop_S ps q (S k) Hq).
  by replace (k + 2)%nat with (S (S k)) by lia.
Qed.

Lemma merge_kept_merge (text : string) (bound : nat) (ps : list string)
    (k : nat) (p q : string) :
  merge_kept eow text bound ps → ps !! k = Some p → ps !! (k + 1)%nat = Some q →
  merge_kept eow text bound (take k ps ++ [p +:+ q] ++ drop (k + 2) ps).
Proof.
  intros ([q0 Hlast] & Hcat & Hlen) Hp Hq.
  pose proof (parts_split ps k p q Hp Hq) as Hps.
  repeat split.
  - rewrite Hps in Hlast. revert Hlast.
    cbn [app]. rewrite !last_app, !last_cons.
    destruct (last (drop (k + 2) ps)) as [y|]; [by exists q0|].
    intros [= ->]. exists (p +:+ q0). by rewrite string_app_assoc.
  - rewrite <- Hcat. symmetry.
    etrans; [apply (f_equal (String.concat "") Hps)|].
    rewrite !string_concat_app.
    change (String.concat "" [p; q]) with (p +:+ ("" +:+ q)).
    change ("" +:+ q) with q. reflexivity.
  - rewrite Hps in Hlen. rewrite !length_app in *. cbn [length] in *. lia.
Qed.

(** The path of [bpe_token] past the test of the whole word. *)
Lemma bpe_token_stages (token : string) :
  in_vocab vocab (token +:+ eow) = false →
  ∃ chars,
    utf8_chars token = Some chars ∧ String.concat "" chars = token ∧
    ((Forall (λ c, in_vocab vocab (c +:+ eow) = false) chars ∧
      bpe_token vocab eow token = Some [])
     ∨
     (∃ init p dropped r,
        chars = init ++ [p] ++ dropped ∧
        in_vocab vocab (p +:+ eow) = true ∧
        Forall (λ c, in_vocab vocab (c +:+ eow) = false) dropped ∧
        bpe_token vocab eow token = Some r ∧
        merge_kept eow
          (String.concat "" (filter (λ c, in_vocab vocab c = true) init)
           +:+ p +:+ eow)
          (length chars) r ∧
        ∀ j x, pair_priority vocab r j = Some x → x ≤ NOT_IN_VOCAB)).
Proof.
  intros Hfast.
  destruct (utf8_chars_total token) as (chars & Hchars & Hcat).
  exists chars. split; [exact Hchars|]. split; [exact Hcat|].
  unfold bpe_token. rewrite Hfast, Hchars. cbn [mbind option_bind].
  destruct (trim_loop_split chars)
    as (kept & dropped & -> & Hsplit & Hdropped & [->|(init & p & -> & Hp)]).
  - left. cbn [mbind option_bind length Nat.eqb]. split; [|reflexivity].
    by rewrite Hsplit.
  - right. cbn [mbind option_bind].
    destruct (Nat.eqb_spec (length (init ++ [p])) 0) as [Hlen|_].
    { rewrite length_app in Hlen. cbn in Hlen. lia. }
    rewrite append_eow_snoc. cbn [mbind option_bind].
    rewrite filter_loop_filter by lia. cbn [mbind option_bind].
    rewrite filter_app, filter_cons_True, filter_nil by exact Hp.
    set (known := filter (λ c, in_vocab vocab c = true) init).
    destruct (merge_loop_rule
      (merge_kept eow (String.concat "" known +:+ p +:+ eow) (length chars))
      (known ++ [p +:+ eow])) as (r & Hr & Hkept & Hlow).
    + repeat split.
      * exists p. apply last_snoc.
      * by rewrite string_concat_snoc.
      * rewrite Hsplit, !length_app. cbn [length].
        pose proof (length_filter (λ c, in_vocab vocab c = true) init).
        fold known in H. lia.
    + intros ps k p' q' v Hps Hp' Hq' _ _. by apply merge_kept_merge.
    + exists init, p, dropped, r. rewrite <- app_assoc in Hsplit.
      do 5 (split; [assumption|]). exact Hlow.
Qed.

End Loops.

(** ** BPE: what [bpe_token] and [tokenize] return *)

Section Results.
Context (vocab : gmap string Z) (eow : string).

Lemma in_vocab_false (k : string) :
  in_vocab vocab k = false ↔ vocab !! k = None.
Proof. unfold in_vocab. by destruct (vocab !! k). Qed.

Lemma filter_all (P : string → Prop) `{!∀ x, Decision (P x)} (l : list string) :
  Forall P l → filter P l = l.
Proof.
  induction 1 as [|x l Hx Hl IH]; [reflexivity|].
  by rewrite filter_cons_True, IH.
Qed.

(** X22. nothing is left to merge in what [bpe_token] returns: no two
    adjacent subwords concatenate to a key with a priority of 0 or
    more. *)
Theorem bpe_token_no_pair_left (token : string) :
  ∃ r, bpe_token vocab eow token = Some r ∧
       ∀ (j : nat) (p q : string) (v : Z),
         r !! j = Some p → r !! (j + 1)%nat = Some q →
         vocab !! (p +:+ q) = Some v → v < 0.
Proof.
  assert (Hpairs : ∀ r : list string,
            (∀ j x, pair_priority vocab r j = Some x → x ≤ NOT_IN_VOCAB) →
            ∀ (j : nat) (p q : string) (v : Z),
              r !! j = Some p → r !! (j + 1)%nat = Some q →
              vocab !! (p +:+ q) = Some v → v < 0).
  { intros r Hlow j p q v Hp Hq Hv.
    assert (pair_priority vocab r j = Some v) as Hx%Hlow.
    { apply pair_priority_Some. exists p, q. by rewrite Hv. }
    unfold NOT_IN_VOCAB in Hx. lia. }
  destruct (in_vocab vocab (token +:+ eow)) eqn:Hfast.
  - exists [token +:+ eow]. split; [unfold bpe_token; by rewrite Hfast|].
    intros j p q v _ Hq. by destruct j.
  - destruct (bpe_token_stages vocab eow token Hfast)
      as (chars & _ & _ & [[_ Hr]|(init & p & dropped & r & _ & _ & _ & Hr & _ & Hlow)]).
    + exists []. split; [exact Hr|]. intros j p q v Hp. discriminate.
    + exists r. split; [exact Hr|]. by apply Hpairs.
Qed.

(** X23. what [bpe_token] returns is empty or ends in a subword that
    carries the end-of-word marker. *)
Theorem bpe_token_last_has_eow (token : string) :
  ∃ r, bpe_token vocab eow token = Some r ∧
       (r = [] ∨ ∃ q, last r = Some (q +:+ eow)).
Proof.
  destruct (in_vocab vocab (token +:+ eow)) eqn:Hfast.
  - exists [token +:+ eow]. split; [unfold bpe_token; by rewrite Hfast|].
    right. by exists token.
  - destruct (bpe_token_stages vocab eow token Hfast)
      as (chars & _ & _ & [[_ Hr]|(init & p & dropped & r & _ & _ & _ & Hr & (Hlast & _) & _)]).
    + exists []. split; [exact Hr | by left].
    + exists r. split; [exact Hr | by right].
Qed.

(** X24. merging only regroups: what [bpe_token] returns is empty, or its
    subwords concatenate to the marker preceded by characters of the
    word, in their order, with the characters that were trimmed or
    filtered left out. *)
Theorem bpe_token_concat (token : string) :
  ∃ r chars,
    bpe_token vocab eow token = Some r ∧ utf8_chars token = Some chars ∧
    (r = [] ∨
     ∃ kept, kept `sublist_of` chars ∧
             String.concat "" r = String.concat "" kept +:+ eow).
Proof.
  destruct (in_vocab vocab (token +:+ eow)) eqn:Hfast.
  - destruct (utf8_chars_total token) as (chars & Hchars & Hcat).
    exists [token +:+ eow], chars.
    split; [unfold bpe_token; by rewrite Hfast|]. split; [exact Hchars|].
    right. exists chars. split; [reflexivity|]. by rewrite Hcat.
  - destruct (bpe_token_stages vocab eow token Hfast)
      as (chars & Hchars & _ &
          [[_ Hr]|(init & p & dropped & r & Hsplit & _ & _ & Hr & (_ & Hcat & _) & _)]).
    + exists [], chars. repeat split; [exact Hr | exact Hchars | by left].
    + exists r, chars. split; [exact Hr|]. split; [exact Hchars|]. right.
      exists (filter (λ c, in_vocab vocab c = true) init ++ [p]). split.
      * rewrite Hsplit. apply sublist_app; [apply sublist_filter|].
        by apply sublist_inserts_r.
      * by rewrite Hcat, string_concat_snoc, string_app_assoc.
Qed.

(** X25. a word whose characters are all keys, the last one with the
    marker attached, loses nothing: the subwords that [bpe_token]
    returns concatenate to the word followed by the marker. *)
Theorem bpe_token_lossless (token : string) (init : list string) (c : string) :
  utf8_chars token = Some (init ++ [c]) →
  Forall (λ p, is_Some (vocab !! p)) init →
  is_Some (vocab !! (c +:+ eow)) →
  ∃ r, bpe_token vocab eow token = Some r ∧
       String.concat "" r = token +:+ eow.
Proof.
  intros Hchars Hinit Hc%in_vocab_is_Some.
  destruct (in_vocab vocab (token +:+ eow)) eqn:Hfast.
  { exists [token +:+ eow]. split; [unfold bpe_token; by rewrite Hfast|].
    reflexivity. }
  destruct (bpe_token_stages vocab eow token Hfast)
    as (chars & Hchars' & Hcat &
        [[Hnone _]|(init' & p & dropped & r & Hsplit & _ & Hdropped & Hr & (_ & Hr_cat & _) & _)]);
    rewrite Hchars in Hchars'; injection Hchars' as <-.
  - apply Forall_app in Hnone as [_ Hnone].
    rewrite Forall_singleton in Hnone. congruence.
  - exists r. split; [exact Hr|].
    assert (dropped = []) as ->.
    { destruct dropped as [|d dropped _] using rev_ind; [reflexivity|].
      rewrite !app_assoc in Hsplit. apply app_inj_tail in Hsplit as [_ ->].
      apply Forall_app in Hdropped as [_ Hd].
      rewrite Forall_singleton in Hd. congruence. }
    rewrite app_nil_r in Hsplit. apply app_inj_tail in Hsplit as [<- <-].
    rewrite Hr_cat, filter_all.
    + by rewrite <- Hcat, string_concat_snoc, string_app_assoc.
    + eapply Forall_impl; [exact Hinit|]. intros x. apply in_vocab_is_Some.
Qed.

(** X26. [bpe_token] returns the empty list exactly when the word with the
    marker is not a key and no character of the word is a key with the
    marker attached. *)
Theorem bpe_token_empty (token : string) :
  bpe_token vocab eow token = Some [] ↔
  vocab !! (token +:+ eow) = None ∧
  ∃ chars, utf8_chars token = Some chars ∧
           Forall (λ c, vocab !! (c +:+ eow) = None) chars.
Proof.
  split.
  - intros Hr.
    destruct (in_vocab vocab (token +:+ eow)) eqn:Hfast.
    { unfold bpe_token in Hr. rewrite Hfast in Hr. discriminate. }
    split; [by apply in_vocab_false|].
    destruct (bpe_token_stages vocab eow token Hfast)
      as (chars & Hchars & _ &
          [[Hnone _]|(init & p & dropped & r & _ & _ & _ & Hr' & ([q Hlast] & _) & _)]).
    + exists chars. split; [exact Hchars|].
      eapply Forall_impl; [exact Hnone|]. intros c. apply in_vocab_false.
    + rewrite Hr in Hr'. injection Hr' as <-. discriminate.
  - intros [Hfast%in_vocab_false (chars & Hchars & Hnone)].
    destruct (bpe_token_stages vocab eow token Hfast)
      as (chars' & Hchars' & _ &
          [[_ Hr]|(init & p & dropped & r & Hsplit & Hp & _)]);
      [exact Hr|].
    rewrite Hchars in Hchars'. injection Hchars' as <-.
    rewrite Hsplit in Hnone.
    apply Forall_app in Hnone as [_ [Hnone _]%Forall_app].
    rewrite Forall_singleton in Hnone. apply in_vocab_false in Hnone. congruence.
Qed.

(** X27. apart from the whole-word result, [bpe_token] returns no more
    subwords than the word has characters, hence no more than it has
    bytes. *)
Theorem bpe_token_length (token : string) :
  ∃ r chars,
    bpe_token vocab eow token = Some r ∧ utf8_chars token = Some chars ∧
    (r = [token +:+ eow] ∨
     (length r ≤ length chars ∧ length chars ≤ String.length token)%nat).
Proof.
  destruct (in_vocab vocab (token +:+ eow)) eqn:Hfast.
  - destruct (utf8_chars_total token) as (chars & Hchars & _).
    exists [token +:+ eow], chars.
    split; [unfold bpe_token; by rewrite Hfast|]. split; [exact Hchars|].
    by left.
  - destruct (bpe_token_stages vocab eow token Hfast)
      as (chars & Hchars & _ &
          [[_ Hr]|(init & p & dropped & r & _ & _ & _ & Hr & (_ & _ & Hlen) & _)]).
    + exists [], chars. repeat split; [exact Hr | exact Hchars|].
      right. cbn [length]. split; [lia|].
      by apply Utf8More.utf8_chars_count.
    + exists r, chars. split; [exact Hr|]. split; [exact Hchars|].
      right. split; [exact Hlen|]. by apply Utf8More.utf8_chars_count.
Qed.

Lemma tokenize_loop_concat (tokens acc : list string) :
  ∃ rs, Forall2 (λ token r, bpe_token vocab eow token = Some r) tokens rs ∧
        for_each
          (λ bpe_tokens token,
             parts ← bpe_token vocab eow token;
             Some (fold_left (λ acc part, acc ++ [part]) parts bpe_tokens))
          tokens acc = Some (acc ++ concat rs).
Proof.
  revert acc. induction tokens as [|token tokens IH]; intros acc.
  - exists []. split; [constructor|]. cbn. by rewrite app_nil_r.
  - destruct (bpe_token_total vocab eow token) as (r & Hr & _).
    destruct (IH (acc ++ r)) as (rs & Hrs & Hloop).
    exists (r :: rs). split; [by constructor|].
    cbn [for_each]. rewrite Hr. cbn [mbind option_bind].
    rewrite fold_left_snoc, Hloop. cbn [concat]. by rewrite app_assoc.
Qed.

(** X28. [tokenize] returns for every list of words, and returns the
    results of [bpe_token] on the words, concatenated in order. *)
Theorem tokenize_concat (tokens : list string) :
  ∃ rs, Forall2 (λ token r, bpe_token vocab eow token = Some r) tokens rs ∧
        tokenize vocab eow tokens = Some (concat rs).
Proof. apply (tokenize_loop_concat tokens []). Qed.

End Results.

Lemma bpe_token_lossless_witness :
  ∃ r, bpe_token doc_table "_EOW" "this" = Some r ∧
       String.concat "" r = "this" +:+ "_EOW".
Proof.
  apply (bpe_token_lossless doc_table "_EOW" "this" ["t"; "h"; "i"] "s").
  - reflexivity.
  - repeat (apply Forall_cons_2; [by eexists|]). apply Forall_nil_2.
  - by eexists.
Defined.

End BPEMore.
